(** * Shallow embedding of the primitive code generator and the runtime of inc

    [src/rs/src/primitives.rs] emits x86-64 instruction sequences for the
    Scheme primitives; [src/rs/src/rt.rs] is the native runtime that decodes
    tagged words.  Registers and stack slots hold signed 64-bit words,
    represented as [Z] in [-2^63, 2^63) with the wrap-around written out. *)

From Stdlib Require Import ZArith Lia List String Ascii Bool.
Import ListNotations.
Open Scope Z_scope.

(** ** 64-bit words *)

Definition wrap64 (z : Z) : Z := (z + 2 ^ 63) mod 2 ^ 64 - 2 ^ 63.

(** Unsigned view of a word ([as u64] / [as usize]). *)
Definition to_u64 (z : Z) : Z := z mod 2 ^ 64.

(** ** Decimal rendering ([Display] for [i64] and [format!("{}")]) *)

Fixpoint digits_aux (fuel : nat) (n : Z) (acc : string) : string :=
  match fuel with
  | O => acc
  | S f =>
      let acc' := String (ascii_of_nat (48 + Z.to_nat (n mod 10))) acc in
      if n <? 10 then acc' else digits_aux f (n / 10) acc'
  end.

Definition show_nat_Z (n : Z) : string :=
  digits_aux (S (Z.to_nat (Z.log2 n))) n EmptyString.

Definition show_Z (n : Z) : string :=
  if n <? 0 then append "-" (show_nat_Z (- n)) else show_nat_Z n.

(** ** The immediate encoding (module [immediate], not under src/)

    Modelled from the spec: §3 and §4.1 fix the layout but not the numeric
    constants, so the tag assignment is a parameter of the whole development
    (a type class) and every statement is proved for every assignment that
    satisfies [imm_wf].  [MASK] selects the low [SHIFT] bits, fixnums are
    [n << SHIFT], and the two booleans are what the comparison helper
    materialises: [(flag << SHIFT) | BOOL] (§4.3). *)
Class Immediates := {
  SHIFT : Z;
  NUM : Z; BOOL : Z; CHAR : Z; PAIR : Z; NIL : Z; STR : Z; SYM : Z; VEC : Z
}.

Fixpoint nodupb (l : list Z) : bool :=
  match l with
  | [] => true
  | x :: r => negb (existsb (Z.eqb x) r) && nodupb r
  end.

Section Immediate.
Context `{Immediates}.

Definition MASK : Z := 2 ^ SHIFT - 1.
Definition TRUE : Z := Z.lor (Z.shiftl 1 SHIFT) BOOL.
Definition FALSE : Z := Z.lor (Z.shiftl 0 SHIFT) BOOL.

Definition tags : list Z := [NUM; BOOL; CHAR; PAIR; NIL; STR; SYM; VEC].

(** Fixnum encoding [n << SHIFT] on a 64-bit word. *)
Definition encode (n : Z) : Z := wrap64 (Z.shiftl n SHIFT).

(** The tagged boolean of a flag. *)
Definition bool_word (b : bool) : Z := if b then TRUE else FALSE.

(** Characters carry their byte as literal payload. *)
Definition encode_char (c : Z) : Z := Z.lor (Z.shiftl c SHIFT) CHAR.

(** Well-formedness of an assignment: a tag field of 3..7 bits (eight tags,
    and [TRUE] fits in the byte register [al]), fixnums carry tag 0, all
    tags distinct and inside the field. *)
Definition imm_wf : bool :=
  (3 <=? SHIFT) && (SHIFT <=? 7) && (NUM =? 0) &&
  forallb (fun t => (0 <=? t) && (t <? 2 ^ SHIFT)) tags && nodupb tags.

End Immediate.

(** ** The x86 layer (module [x86], not under src/)

    Modelled from the spec (§6): an instruction sequence is a list of
    instructions run in order.  The [Slice] lines of [primitives.rs] are raw
    text; each text line used there is one constructor of [Raw], and
    [render_raw] gives the exact text of the source. *)
Inductive Register := RAX | RCX | RDX.

Inductive Operand :=
| Const (n : Z)
| Reg (r : Register)
| Stack (si : Z).

Inductive Raw :=
| SetAl (setcc : string)      (* format!("    {} al\n", setcc) *)
| MovzxRaxAl                  (* "    movzx rax, al\n" *)
| SalAl (k : Z)               (* format!("    sal al, {}\n", k) *)
| OrAl (k : Z)                (* format!("    or al, {}\n", k) *)
| MovRcxRax                   (* "    mov rcx, rax \n" *)
| MovRdx0                     (* "    mov rdx, 0 \n" *)
| Cqo                         (* "    cqo \n" *)
| IdivRcx.                    (* "    idiv rcx \n" *)

Definition nl : string := String (ascii_of_nat 10) EmptyString.

Definition render_raw (x : Raw) : string :=
  match x with
  | SetAl cc => "    " ++ cc ++ " al" ++ nl
  | MovzxRaxAl => "    movzx rax, al" ++ nl
  | SalAl k => "    sal al, " ++ show_Z k ++ nl
  | OrAl k => "    or al, " ++ show_Z k ++ nl
  | MovRcxRax => "    mov rcx, rax " ++ nl
  | MovRdx0 => "    mov rdx, 0 " ++ nl
  | Cqo => "    cqo " ++ nl
  | IdivRcx => "    idiv rcx " ++ nl
  end.

Inductive Ins :=
| Add (r : Register) (v : Operand)
| Sub (r : Register) (v : Operand)
| And (r : Register) (v : Operand)
| Sar (r : Register) (k : Z)
| Sal (r : Register) (k : Z)
| Mul (v : Operand)
| Mov (to from : Operand)
| Save (r : Register) (si : Z)
| Load (r : Register) (si : Z)
| Cmp (a b : Operand)
| Slice (x : Raw).

Definition ASM := list Ins.

Record Machine := mkMachine {
  rax : Z; rcx : Z; rdx : Z;
  stk : Z -> Z;           (* scratch slot [si] *)
  flags : Z * Z           (* operands of the last [cmp] *)
}.

Definition get (m : Machine) (r : Register) : Z :=
  match r with RAX => rax m | RCX => rcx m | RDX => rdx m end.

Definition set (m : Machine) (r : Register) (v : Z) : Machine :=
  match r with
  | RAX => mkMachine v (rcx m) (rdx m) (stk m) (flags m)
  | RCX => mkMachine (rax m) v (rdx m) (stk m) (flags m)
  | RDX => mkMachine (rax m) (rcx m) v (stk m) (flags m)
  end.

Definition set_stk (m : Machine) (si v : Z) : Machine :=
  mkMachine (rax m) (rcx m) (rdx m)
    (fun i => if i =? si then v else stk m i) (flags m).

Definition opval (m : Machine) (o : Operand) : Z :=
  match o with Const n => n | Reg r => get m r | Stack si => stk m si end.

(** The condition of a [SETcc] on the flags of [cmp a, b]. *)
Definition cond (cc : string) (f : Z * Z) : option bool :=
  let (a, b) := f in
  if String.eqb cc "sete" then Some (a =? b)
  else if String.eqb cc "setl" then Some (a <? b)
  else if String.eqb cc "setg" then Some (b <? a)
  else if String.eqb cc "setle" then Some (a <=? b)
  else if String.eqb cc "setge" then Some (b <=? a)
  else None.

(** Write the low byte [al] of [rax]. *)
Definition set_al (m : Machine) (b : Z) : Machine :=
  set m RAX (Z.lor (Z.land (rax m) (Z.lnot 255)) (Z.land b 255)).

Definition step_raw (x : Raw) (m : Machine) : option Machine :=
  match x with
  | SetAl cc =>
      match cond cc (flags m) with
      | Some b => Some (set_al m (if b then 1 else 0))
      | None => None
      end
  | MovzxRaxAl => Some (set m RAX (Z.land (rax m) 255))
  | SalAl k => Some (set_al m (Z.shiftl (Z.land (rax m) 255) k))
  | OrAl k => Some (set_al m (Z.lor (Z.land (rax m) 255) k))
  | MovRcxRax => Some (set m RCX (rax m))
  | MovRdx0 => Some (set m RDX 0)
  | Cqo => Some (set m RDX (if rax m <? 0 then -1 else 0))
  | IdivRcx =>
      (* signed divide of rdx:rax by rcx; #DE on zero or overflow *)
      let d := rdx m * 2 ^ 64 + to_u64 (rax m) in
      if rcx m =? 0 then None
      else let q := Z.quot d (rcx m) in
        if (q <? - 2 ^ 63) || (2 ^ 63 <=? q) then None
        else Some (set (set m RAX q) RDX (Z.rem d (rcx m)))
  end.

(** One instruction.  [Sub] with a stack operand is rendered with the memory
    slot as destination: the comment at [minus] ("update result in stack and
    load it back") and §4.2 of the spec (the fix-up lands first - second)
    describe this rendering of the [x86] layer. *)
Definition step (i : Ins) (m : Machine) : option Machine :=
  match i with
  | Add r v => Some (set m r (wrap64 (get m r + opval m v)))
  | Sub r (Stack si) => Some (set_stk m si (wrap64 (stk m si - get m r)))
  | Sub r v => Some (set m r (wrap64 (get m r - opval m v)))
  | And r v => Some (set m r (Z.land (get m r) (opval m v)))
  | Sar r k => Some (set m r (Z.shiftr (get m r) k))
  | Sal r k => Some (set m r (wrap64 (Z.shiftl (get m r) k)))
  | Mul v =>
      (* unsigned [mul]: rdx:rax := rax * v *)
      let p := to_u64 (rax m) * to_u64 (opval m v) in
      Some (set (set m RAX (wrap64 p)) RDX (wrap64 (p / 2 ^ 64)))
  | Mov (Reg r) from => Some (set m r (opval m from))
  | Mov (Stack si) from => Some (set_stk m si (opval m from))
  | Mov (Const _) _ => None
  | Save r si => Some (set_stk m si (get m r))
  | Load r si => Some (set m r (stk m si))
  | Cmp a b =>
      Some (mkMachine (rax m) (rcx m) (rdx m) (stk m) (opval m a, opval m b))
  | Slice x => step_raw x m
  end.

Fixpoint exec (c : ASM) (m : Machine) : option Machine :=
  match c with
  | [] => Some m
  | i :: c' =>
      match step i m with
      | Some m' => exec c' m'
      | None => None
      end
  end.

(** ** The primitives ([primitives.rs])

    [emit::eval] is the out-of-scope expression compiler: a parameter
    threading the compilation [State] (the Rust [&mut State]), whose cursor
    field is [si].  Rust evaluates the operands of [+] on [ASM] from left
    to right, so [s.si] is read after the calls to the left of it. *)
Module Prim.
Section Primitives.
Context `{Immediates}.
Variables (AST State : Type) (si : State -> Z).
Variable eval : State -> AST -> ASM * State.

(** Modelled from the spec (§6): [emit::mask()] masks the accumulator to
    the tag field in place. *)
Definition mask : ASM := [And RAX (Const MASK)].

Definition compare (a b : Operand) (setcc : string) : ASM :=
  [Cmp a b;
   Slice (SetAl setcc);
   Slice MovzxRaxAl;
   Slice (SalAl SHIFT);
   Slice (OrAl BOOL)].

(** Unary primitives *)

Definition inc (s : State) (x : AST) : ASM * State :=
  let '(c, s1) := eval s x in (c ++ [Add RAX (Const (encode 1))], s1).

Definition dec (s : State) (x : AST) : ASM * State :=
  let '(c, s1) := eval s x in (c ++ [Sub RAX (Const (encode 1))], s1).

Definition fixnump (s : State) (e : AST) : ASM * State :=
  let '(c, s1) := eval s e in
  (c ++ mask ++ compare (Reg RAX) (Const NUM) "sete", s1).

Definition booleanp (s : State) (e : AST) : ASM * State :=
  let '(c, s1) := eval s e in
  (c ++ mask ++ compare (Reg RAX) (Const BOOL) "sete", s1).

Definition charp (s : State) (e : AST) : ASM * State :=
  let '(c, s1) := eval s e in
  (c ++ mask ++ compare (Reg RAX) (Const CHAR) "sete", s1).

Definition nullp (s : State) (e : AST) : ASM * State :=
  let '(c, s1) := eval s e in (c ++ compare (Reg RAX) (Const NIL) "sete", s1).

Definition zerop (s : State) (e : AST) : ASM * State :=
  let '(c, s1) := eval s e in (c ++ compare (Reg RAX) (Const NUM) "sete", s1).

Definition not (s : State) (e : AST) : ASM * State :=
  let '(c, s1) := eval s e in (c ++ compare (Reg RAX) (Const FALSE) "sete", s1).

(** Binary primitives *)

Definition binop (s : State) (x y : AST) : ASM * State :=
  let '(cx, s1) := eval s x in
  let sv := Save RAX (si s1) in
  let '(cy, s2) := eval s1 y in
  (cx ++ [sv] ++ cy, s2).

Definition plus (s : State) (x y : AST) : ASM * State :=
  let '(c, s1) := binop s x y in (c ++ [Add RAX (Stack (si s1))], s1).

Definition minus (s : State) (x y : AST) : ASM * State :=
  let '(c, s1) := binop s x y in
  (c ++ [Sub RAX (Stack (si s1)); Load RAX (si s1)], s1).

Definition mul (s : State) (x y : AST) : ASM * State :=
  let '(c, s1) := binop s x y in
  (c ++ [Sar RAX SHIFT; Mul (Stack (si s1))], s1).

Definition div (s : State) (x y : AST) : ASM * State :=
  let '(cy, s1) := eval s y in
  let '(cx, s2) := eval s1 x in
  (cy ++ [Sar RAX SHIFT; Slice MovRcxRax] ++ cx ++
   [Sar RAX SHIFT; Slice MovRdx0; Slice Cqo; Slice IdivRcx], s2).

Definition quotient (s : State) (x y : AST) : ASM * State :=
  let '(c, s1) := div s x y in (c ++ [Sal RAX SHIFT], s1).

Definition remainder (s : State) (x y : AST) : ASM * State :=
  let '(c, s1) := div s x y in
  (c ++ [Mov (Reg RAX) (Reg RDX); Sal RAX SHIFT], s1).

Definition eq (s : State) (x y : AST) : ASM * State :=
  let '(c, s1) := binop s x y in (c ++ compare (Stack (si s1)) (Reg RAX) "sete", s1).

Definition lt (s : State) (x y : AST) : ASM * State :=
  let '(c, s1) := binop s x y in (c ++ compare (Stack (si s1)) (Reg RAX) "setl", s1).

Definition gt (s : State) (x y : AST) : ASM * State :=
  let '(c, s1) := binop s x y in (c ++ compare (Stack (si s1)) (Reg RAX) "setg", s1).

Definition lte (s : State) (x y : AST) : ASM * State :=
  let '(c, s1) := binop s x y in (c ++ compare (Stack (si s1)) (Reg RAX) "setle", s1).

Definition gte (s : State) (x y : AST) : ASM * State :=
  let '(c, s1) := binop s x y in (c ++ compare (Stack (si s1)) (Reg RAX) "setge", s1).

(** The contract of [emit::eval] (spec §4.2 and §6), as predicates.  Code
    [c] loads [v]: from any machine it runs to completion with [v] in the
    accumulator and the scratch slots at or below [lo] as they were. *)
Definition loads (c : ASM) (lo v : Z) : Prop :=
  forall m, exists m', exec c m = Some m' /\ rax m' = v /\
    forall i, i <= lo -> stk m' i = stk m i.

(** Operand [e] evaluates to [v] in every compilation state. *)
Definition operand_value (e : AST) (v : Z) : Prop :=
  forall s, loads (fst (eval s e)) (si s) v.

(** Compiling an operand restores the cursor. *)
Definition keeps_si : Prop := forall s e, si (snd (eval s e)) = si s.

(** The code of [e] leaves [rcx] alone. *)
Definition keeps_rcx (e : AST) : Prop :=
  forall s m m', exec (fst (eval s e)) m = Some m' -> rcx m' = rcx m.

End Primitives.
End Prim.

(** ** The runtime ([rt.rs])

    Memory is a list of bytes from address 0; reading or writing outside it
    faults.  [None] is an abort of the process: a failed [assert!], a
    [panic!], an [unwrap] on an error, or a fault. *)
Notation "'let?' x ':=' o 'in' k" :=
  (match o with Some x => k | None => None end)
  (at level 200, x name, right associativity).

Module Rt.
Section Runtime.
Context `{Immediates}.

Definition mem := list Z.

(** Little-endian words *)
Fixpoint le_val (bs : list Z) : Z :=
  match bs with [] => 0 | b :: r => b + 256 * le_val r end.

Fixpoint le_bytes (k : nat) (w : Z) : list Z :=
  match k with O => [] | S k' => w mod 256 :: le_bytes k' (w / 256) end.

Definition read_bytes (m : mem) (a : Z) (n : nat) : option (list Z) :=
  if (0 <=? a) && (a + Z.of_nat n <=? Z.of_nat (List.length m))
  then Some (firstn n (skipn (Z.to_nat a) m)) else None.

(** [*(p as *const usize)] *)
Definition load_u64 (m : mem) (a : Z) : option Z :=
  option_map le_val (read_bytes m a 8).

(** [*(p as *const i64)] *)
Definition load64 (m : mem) (a : Z) : option Z :=
  option_map wrap64 (load_u64 m a).

Definition store_bytes (m : mem) (a : Z) (bs : list Z) : option mem :=
  if (0 <=? a) && (a + Z.of_nat (List.length bs) <=? Z.of_nat (List.length m))
  then Some (firstn (Z.to_nat a) m ++ bs ++ skipn (Z.to_nat a + List.length bs) m)
  else None.

(** [CStr::from_ptr]: the bytes up to the first NUL. *)
Fixpoint take_cstr (l : list Z) : option (list Z) :=
  match l with
  | [] => None
  | b :: r => if b =? 0 then Some [] else option_map (cons b) (take_cstr r)
  end.

Definition cstr_at (m : mem) (a : Z) : option (list Z) :=
  if 0 <=? a then take_cstr (skipn (Z.to_nat a) m) else None.

(** [String::from_utf8_lossy]: each maximal invalid prefix of a UTF-8
    sequence becomes U+FFFD (bytes EF BF BD), as in [core::str::Utf8Chunks]. *)
Definition cont (b : Z) : bool := (128 <=? b) && (b <? 192).

Definition utf8_width (b : Z) : nat :=
  if (194 <=? b) && (b <=? 223) then 2
  else if (224 <=? b) && (b <=? 239) then 3
  else if (240 <=? b) && (b <=? 244) then 4
  else 0.

Definition second_ok (b c : Z) : bool :=
  if b =? 224 then (160 <=? c) && (c <=? 191)
  else if (225 <=? b) && (b <=? 236) then cont c
  else if b =? 237 then (128 <=? c) && (c <=? 159)
  else if (238 <=? b) && (b <=? 239) then cont c
  else if b =? 240 then (144 <=? c) && (c <=? 191)
  else if (241 <=? b) && (b <=? 243) then cont c
  else if b =? 244 then (128 <=? c) && (c <=? 143)
  else false.

Definition REPLACEMENT : list Z := [239; 191; 189].

Fixpoint lossy (fuel : nat) (l : list Z) : list Z :=
  match fuel with
  | O => []
  | S f =>
    match l with
    | [] => []
    | b :: r =>
      if b <? 128 then b :: lossy f r else
      match utf8_width b, r with
      | 2%nat, c :: r1 =>
          if cont c then b :: c :: lossy f r1 else REPLACEMENT ++ lossy f r
      | 3%nat, c1 :: r1 =>
          if second_ok b c1 then
            match r1 with
            | c2 :: r2 =>
                if cont c2 then b :: c1 :: c2 :: lossy f r2
                else REPLACEMENT ++ lossy f r1
            | [] => REPLACEMENT ++ lossy f r1
            end
          else REPLACEMENT ++ lossy f r
      | 4%nat, c1 :: r1 =>
          if second_ok b c1 then
            match r1 with
            | c2 :: r2 =>
                if cont c2 then
                  match r2 with
                  | c3 :: r3 =>
                      if cont c3 then b :: c1 :: c2 :: c3 :: lossy f r3
                      else REPLACEMENT ++ lossy f r2
                  | [] => REPLACEMENT ++ lossy f r2
                  end
                else REPLACEMENT ++ lossy f r1
            | [] => REPLACEMENT ++ lossy f r1
            end
          else REPLACEMENT ++ lossy f r
      | _, _ => REPLACEMENT ++ lossy f r
      end
    end
  end.

Definition to_string_lossy (l : list Z) : list Z := lossy (List.length l) l.

Definition tag (val : Z) : Z := Z.land val MASK.

Definition car (m : mem) (val : Z) : option Z :=
  if tag val =? PAIR then load64 m (val - PAIR) else None.

Definition cdr (m : mem) (val : Z) : option Z :=
  if tag val =? PAIR then load64 m (val - PAIR + 8) else None.

(** Returns [usize]; the caller sees the 64-bit word. *)
Definition string_length (m : mem) (val : Z) : option Z :=
  if tag val =? STR
  then option_map (fun len => wrap64 (Z.shiftl len SHIFT)) (load_u64 m (val - STR))
  else None.

Definition symbol_eq (a b : Z) : Z :=
  if (a =? b) && (tag a =? SYM) then TRUE else FALSE.

Definition str_str (m : mem) (val : Z) : option (list Z) :=
  if tag val =? STR
  then option_map to_string_lossy (cstr_at m (val - STR + 8)) else None.

Definition sym_name (m : mem) (val : Z) : option (list Z) :=
  if tag val =? SYM
  then option_map to_string_lossy (cstr_at m (val - SYM + 16)) else None.

Definition vec_len (m : mem) (val : Z) : option Z :=
  if tag val =? VEC then load64 m (val - VEC) else None.

Definition vec_nth (m : mem) (val n : Z) : option Z :=
  if tag val =? VEC then load64 m (val - VEC + 8 + n * 8) else None.

(** Modelled from the spec (§3, Pair): the code that builds a pair is
    emitted by the compiler, not under src/; a pair at the word-aligned
    address [p] holds its car in word 0 and its cdr in word 1. *)
Definition cons_at (m : mem) (p a b : Z) : option mem :=
  let? m1 := store_bytes m p (le_bytes 8 a) in
  store_bytes m1 (p + 8) (le_bytes 8 b).

(** *** [print]

    Rust's [match val & MASK] over constant patterns tests the arms in
    order; [classify] is that sequence of tests, [None] the [_] arm. *)
Inductive Kind := KNum | KBool | KChar | KPair | KNil | KStr | KSym | KVec.

Definition classify (t : Z) : option Kind :=
  if t =? NUM then Some KNum
  else if t =? BOOL then Some KBool
  else if t =? CHAR then Some KChar
  else if t =? PAIR then Some KPair
  else if t =? NIL then Some KNil
  else if t =? STR then Some KStr
  else if t =? SYM then Some KSym
  else if t =? VEC then Some KVec
  else None.

(** The text written to stdout, and how the call ended: [Abort] is a
    panic or failed assertion; [Stuck] is the exhaustion of the recursion
    bound [fuel] (a cyclic structure makes the Rust [print] recurse
    forever). *)
Inductive Status := Done | Abort | Stuck.

Definition Out : Type := string * Status.

Definition emit (s : string) : Out := (s, Done).

Definition then_ (p q : Out) : Out :=
  match p with
  | (s, Done) => let (s', st) := q in (append s s', st)
  | _ => p
  end.

Definition bind_out {A} (o : option A) (k : A -> Out) : Out :=
  match o with Some v => k v | None => (EmptyString, Abort) end.

Definition bytes_to_string (bs : list Z) : string :=
  fold_right (fun b s => String (ascii_of_nat (Z.to_nat b)) s) EmptyString bs.

Definition dq : string := String (ascii_of_nat 34) EmptyString.

(** [(c as u8) as char] written with [{}]: UTF-8 of a code point below 256. *)
Definition utf8_of_latin1 (c : Z) : list Z :=
  if c <? 128 then [c] else [192 + c / 64; 128 + c mod 64].

Definition print_char (c : Z) : string :=
  if c =? 9 then "#\tab"
  else if c =? 10 then "#\newline"
  else if c =? 13 then "#\return"
  else if c =? 32 then "#\space"
  else append "#\" (bytes_to_string (utf8_of_latin1 c)).

Definition when_not (b : bool) (s : string) : Out :=
  if b then emit EmptyString else emit s.

Fixpoint print (fuel : nat) (m : mem) (val : Z) (nested : bool) : Out :=
  match fuel with
  | O => (EmptyString, Stuck)
  | S f =>
    match classify (tag val) with
    | Some KNum => emit (show_Z (Z.shiftr val SHIFT))
    | Some KBool => emit (if val =? TRUE then "#t" else "#f")
    | Some KChar => emit (print_char (Z.land (Z.shiftr val SHIFT) 255))
    | Some KPair =>
        bind_out (car m val) (fun pcar =>
        bind_out (cdr m val) (fun pcdr =>
          then_ (when_not nested "(")
          (then_ (print f m pcar false)
          (then_ (if pcdr =? NIL then emit EmptyString
                  else if negb (tag pcdr =? PAIR)
                  then then_ (emit " . ") (print f m pcdr false)
                  else then_ (emit " ") (print f m pcdr true))
                 (when_not nested ")")))))
    | Some KNil => emit "()"
    | Some KStr =>
        bind_out (str_str m val) (fun s => emit (append dq (append (bytes_to_string s) dq)))
    | Some KSym =>
        bind_out (sym_name m val) (fun s => emit (append "'" (bytes_to_string s)))
    | Some KVec =>
        bind_out (vec_len m val) (fun n =>
          then_ (emit "[")
          (then_
            ((fix loop (k : nat) (i : Z) : Out :=
                match k with
                | O => emit EmptyString
                | S k' =>
                    bind_out (vec_nth m val i) (fun e =>
                    then_ (print f m e false)
                    (bind_out (vec_len m val) (fun n' =>
                      then_ (when_not (i =? n' - 1) " ") (loop k' (i + 1)))))
                end) (Z.to_nat n) 0)
            (emit "]")))
    | None => (EmptyString, Abort)
    end
  end.

(** *** [io]

    A file system maps a path (the bytes of a Rust [String]) to the file's
    contents. *)
Definition FS := list Z -> option (list Z).

Definition fs_update (fs : FS) (p c : list Z) : FS :=
  fun q => if list_eq_dec Z.eq_dec q p then Some c else fs q.

(** The operations that reach the operating system, and its answer, for
    each operation and path, to whether the operation fails for a reason
    other than a missing file: permission denied, a missing parent
    directory, a directory where a file is expected, and the like.  Every
    such failure is turned into a panic by [unwrap] or [unwrap_or_else]. *)
Inductive IOOp := OpenRead | Create | WriteFile | ReadFile.

Definition IOErr := IOOp -> list Z -> bool.

(** [i32] arithmetic: a file descriptor is an [i32] ([RawFd]) and
    [f << SHIFT] is an [i32] shift, which drops the bits shifted out. *)
Definition wrap32 (x : Z) : Z := (x + 2 ^ 31) mod 2 ^ 32 - 2 ^ 31.

(** [rt_open_write]: [File::create] truncates or creates the file, or
    fails (and [unwrap] aborts); [fd] is the descriptor the system hands
    out, and [i64::from] keeps the [i32] result of the shift. *)
Definition rt_open_write (err : IOErr) (fd : Z) (fs : FS) (m : mem) (fname : Z)
  : option (FS * Z) :=
  let? path := str_str m fname in
  if err Create path then None
  else Some (fs_update fs path [], wrap32 (Z.shiftl fd SHIFT)).

(** [rt_open_read]: [File::open] fails (and [unwrap] aborts) on a missing
    file or on any other error the system reports. *)
Definition rt_open_read (err : IOErr) (fd : Z) (fs : FS) (m : mem) (fname : Z)
  : option Z :=
  let? path := str_str m fname in
  if err OpenRead path then None
  else let? _contents := fs path in Some (wrap32 (Z.shiftl fd SHIFT)).

(** [rt_write]: [fs::write] creates or truncates the file and writes the
    text, or fails and [unwrap_or_else] panics. *)
Definition rt_write (err : IOErr) (fs : FS) (m : mem) (data port : Z)
  : option (FS * Z) :=
  let? pv := vec_nth m port 1 in
  let? path := str_str m pv in
  let? contents := str_str m data in
  if err WriteFile path then None
  else Some (fs_update fs path contents, NIL).

(** [rt_read]: the allocation cursor is register [r12] (a [u64]); the
    result is the new memory, the cursor the caller sees after the call and
    the string object.  The first [asm!] names [r12] as an output, so the
    compiled function saves the callee-saved [r12] on entry and restores it
    on return: the [add r12, ...] of the second [asm!] is undone, and the
    caller's cursor is [r12] again. *)
Definition rt_read (err : IOErr) (fs : FS) (m : mem) (r12 : Z) (port : Z)
  : option (mem * Z * Z) :=
  let? pv := vec_nth m port 1 in
  let? path := str_str m pv in
  if err ReadFile path then None else
  let? data := fs path in
  let heap := r12 in
  let str := r12 + 8 in
  let len := Z.of_nat (List.length data) in
  let? m1 := store_bytes m heap (le_bytes 8 len) in
  let? m2 := store_bytes m1 str data in
  Some (m2, r12, Z.lor (wrap64 heap) STR).

(** The standard ports: the fixnums 0, 1 and 2 ([i64::from(k << SHIFT)]). *)
Definition rt_current_input_port : Z := Z.shiftl 0 SHIFT.

Definition rt_current_output_port : Z := Z.shiftl 1 SHIFT.

Definition rt_current_error_port : Z := Z.shiftl 2 SHIFT.

End Runtime.
End Rt.

Arguments Prim.inc {_ _ _} eval s x.
Arguments Prim.dec {_ _ _} eval s x.
Arguments Prim.fixnump {_ _ _} eval s e.
Arguments Prim.booleanp {_ _ _} eval s e.
Arguments Prim.charp {_ _ _} eval s e.
Arguments Prim.nullp {_ _ _} eval s e.
Arguments Prim.zerop {_ _ _} eval s e.
Arguments Prim.not {_ _ _} eval s e.
Arguments Prim.binop {_ _} si eval s x y.
Arguments Prim.plus {_ _} si eval s x y.
Arguments Prim.minus {_ _} si eval s x y.
Arguments Prim.mul {_ _ _} si eval s x y.
Arguments Prim.div {_ _ _} eval s x y.
Arguments Prim.quotient {_ _ _} eval s x y.
Arguments Prim.remainder {_ _ _} eval s x y.
Arguments Prim.eq {_ _ _} si eval s x y.
Arguments Prim.lt {_ _ _} si eval s x y.
Arguments Prim.gt {_ _ _} si eval s x y.
Arguments Prim.lte {_ _ _} si eval s x y.
Arguments Prim.gte {_ _ _} si eval s x y.
Arguments Prim.operand_value {_ _} si eval e v.
Arguments Prim.keeps_si {_ _} si eval.
Arguments Prim.keeps_rcx {_ _} eval e.

(** The spec's allocation step for [read] (§3 Heap, §4.5 step 3): the
    cursor moves past the length word and the payload, rounded up to a
    whole number of 8-byte words. *)
Definition spec_read_advance (n : Z) : Z := 8 * ((8 + n + 7) / 8).

(** Well-formed UTF-8 (the Unicode Standard, Table 3-7): a byte sequence
    made of one-byte sequences 00..7F, two-byte sequences C2..DF 80..BF,
    three-byte sequences E0 A0..BF 80..BF, E1..EC 80..BF 80..BF,
    ED 80..9F 80..BF, EE..EF 80..BF 80..BF, and four-byte sequences
    F0 90..BF 80..BF 80..BF, F1..F3 80..BF 80..BF 80..BF,
    F4 80..8F 80..BF 80..BF. *)
Definition in_range (lo hi b : Z) : bool := (lo <=? b) && (b <=? hi).

Definition second_byte3 (b c : Z) : bool :=
  if b =? 224 then in_range 160 191 c
  else if b =? 237 then in_range 128 159 c
  else in_range 128 191 c.

Definition second_byte4 (b c : Z) : bool :=
  if b =? 240 then in_range 144 191 c
  else if b =? 244 then in_range 128 143 c
  else in_range 128 191 c.

Fixpoint utf8_valid (l : list Z) : bool :=
  match l with
  | [] => true
  | b :: r =>
      if in_range 0 127 b then utf8_valid r
      else if in_range 194 223 b then
        match r with
        | c1 :: r1 => in_range 128 191 c1 && utf8_valid r1
        | [] => false
        end
      else if in_range 224 239 b then
        match r with
        | c1 :: c2 :: r2 => second_byte3 b c1 && in_range 128 191 c2 && utf8_valid r2
        | _ => false
        end
      else if in_range 240 244 b then
        match r with
        | c1 :: c2 :: c3 :: r3 =>
            second_byte4 b c1 && in_range 128 191 c2 && in_range 128 191 c3 &&
            utf8_valid r3
        | _ => false
        end
      else false
  end.

(** A tag assignment used to run the definitions on concrete words. *)
Definition sample_imm : Immediates :=
  {| SHIFT := 3; NUM := 0; BOOL := 1; CHAR := 2; PAIR := 3;
     NIL := 4; STR := 5; SYM := 6; VEC := 7 |}.

(** A heap of 80 bytes for the concrete runs: a file-backed port, the
    vector at address 0 (two elements), whose element 1 is the string
    object at 32 naming the file "a"; the allocation cursor starts at 64. *)
Definition sample_heap : list Z :=
  Rt.le_bytes 8 2 ++ Rt.le_bytes 8 0 ++ Rt.le_bytes 8 (32 + 5) ++ Rt.le_bytes 8 0 ++
  Rt.le_bytes 8 1 ++ [97; 0] ++ repeat 0 (80 - 42).

Definition sample_fs (contents : list Z) : Rt.FS :=
  fun q => if list_eq_dec Z.eq_dec q [97] then Some contents else None.

(** An operating system that reports no error other than a missing file,
    and one that refuses every read (the files are write-only). *)
Definition no_err : Rt.IOErr := fun _ _ => false.

Definition read_denied : Rt.IOErr :=
  fun op _ => match op with Rt.OpenRead | Rt.ReadFile => true | _ => false end.

(** A second assignment with a 4-bit tag field, so that some tag values
    name no type. *)
Definition sample_imm_wide : Immediates :=
  {| SHIFT := 4; NUM := 0; BOOL := 1; CHAR := 2; PAIR := 3;
     NIL := 4; STR := 5; SYM := 6; VEC := 7 |}.

(** An operand compiler for literal words: the operand is the word itself,
    loaded with one [mov]; the compilation state is the stack index. *)
Definition lit_si (s : Z) : Z := s.

Definition lit_eval (s : Z) (e : Z) : ASM * Z := ([Mov (Reg RAX) (Const e)], s).

Definition sample_machine : Machine := mkMachine 0 0 0 (fun _ => 0) (0, 0).

Definition words (ws : list Z) : list Z := flat_map (Rt.le_bytes 8) ws.

(** Heap objects for [print] under [sample_imm]: the pair (1 . 2) at 0, the
    list (1 2 3) at 16, 32 and 48, an empty vector at 64 and the string
    object "hi" at 72. *)
Definition print_heap : list Z :=
  words [8; 16; 8; 32 + 3; 16; 48 + 3; 24; 4; 0; 2] ++ [104; 105; 0] ++ repeat 0 5.

(** A string object at 0 whose three bytes hold a NUL in the middle. *)
Definition nul_heap : list Z := words [3] ++ [65; 0; 66] ++ repeat 0 5.

(** More heap objects under [sample_imm] (fixnum [n] is the word [8 n],
    a pair at [p] the word [p + 3], [NIL] the word 4): the list (1 2) in
    cells at 0 and 16; the list (1 2 . 3); a one-cell list whose cdr is the
    cell itself; the vector [1 2 3] at 0; a vector whose count word is -1;
    a string object at 0 with text "hi" and a symbol at 16 named "hi". *)
Definition list_heap : list Z := words [8; 16 + 3; 16; 4].

Definition improper_heap : list Z := words [8; 16 + 3; 16; 24].

Definition cycle_heap : list Z := words [56; 0 + 3].

Definition vec_heap : list Z := words [3; 8; 16; 24].

Definition neg_vec_heap : list Z := words [-1].

Definition text_heap : list Z :=
  words [2] ++ [104; 105; 0; 0; 0; 0; 0; 0] ++ words [0; 0] ++ [104; 105; 0] ++ repeat 0 5.

(** Memory after [store_bytes] of [bs] at address [a]. *)
Definition stored (m : list Z) (a : nat) (bs : list Z) : list Z :=
  firstn a m ++ bs ++ skipn (a + List.length bs) m.

(** Code [c] run from [m] completes with the word [w] in the accumulator. *)
Definition runs_to (c : ASM) (m : Machine) (w : Z) : Prop :=
  exists m', exec c m = Some m' /\ rax m' = w.

(** A list of fixnums laid out as pairs (§3, Pair): the cell [(p, a)] at the
    aligned address [p] holds [encode a] in word 0 and, in word 1, the next
    cell's address tagged [PAIR], or the tail [tl] after the last cell. *)
Fixpoint fixnum_cells `{Immediates} (m : list Z) (cs : list (Z * Z)) (tl : Z) : Prop :=
  match cs with
  | [] => False
  | (p, a) :: r =>
      p mod 2 ^ SHIFT = 0 /\ Rt.load64 m p = Some (encode a) /\
      match r with
      | [] => Rt.load64 m (p + 8) = Some tl
      | (q, _) :: _ => Rt.load64 m (p + 8) = Some (Z.lor q PAIR) /\ fixnum_cells m r tl
      end
  end.

(** A vector of fixnums at the aligned address [p] (§3, Vector): its
    element count, then one word per element. *)
Definition fixnum_vector `{Immediates} (m : list Z) (p : Z) (ns : list Z) : Prop :=
  p mod 2 ^ SHIFT = 0 /\ Rt.load64 m p = Some (Z.of_nat (List.length ns)) /\
  forall i, (i < List.length ns)%nat ->
    Rt.load64 m (p + 8 + Z.of_nat i * 8) = Some (encode (nth i ns 0)).

(** The byte values 0..255. *)
Definition byte_range : list Z := map Z.of_nat (seq 0 256).

(** * Proofs *)

(** ** Words *)

Lemma wrap64_eq (x : Z) : wrap64 x = x - 2 ^ 64 * ((x + 2 ^ 63) / 2 ^ 64).
Proof.
  unfold wrap64. rewrite Z.mod_eq by lia. lia.
Qed.

Lemma wrap64_range (x : Z) : - 2 ^ 63 <= wrap64 x < 2 ^ 63.
Proof.
  unfold wrap64. pose proof (Z.mod_pos_bound (x + 2 ^ 63) (2 ^ 64)). lia.
Qed.

Lemma wrap64_id (x : Z) : - 2 ^ 63 <= x < 2 ^ 63 -> wrap64 x = x.
Proof.
  intro Hx. unfold wrap64. rewrite Z.mod_small by lia. lia.
Qed.

Lemma wrap64_congr (x y : Z) : (x - y) mod 2 ^ 64 = 0 -> wrap64 x = wrap64 y.
Proof.
  intro Hxy. unfold wrap64. f_equal.
  apply Z.mod_divide in Hxy; [|lia]. destruct Hxy as [k Hk].
  replace (x + 2 ^ 63) with ((y + 2 ^ 63) + k * 2 ^ 64) by lia.
  apply Z_mod_plus_full.
Qed.

Lemma mod_mul_0 (k c : Z) : (k * 2 ^ 64 + c) mod 2 ^ 64 = c mod 2 ^ 64.
Proof.
  rewrite Z.add_comm. apply Z_mod_plus_full.
Qed.

(** ** The immediate encoding *)

Lemma nodupb_NoDup (l : list Z) : nodupb l = true -> NoDup l.
Proof.
  induction l as [|x r IH]; simpl; intro Hl; constructor.
  - apply andb_prop in Hl as [Hx _]. apply negb_true_iff in Hx.
    intro Hin. assert (existsb (Z.eqb x) r = true) as Hc.
    { apply existsb_exists. exists x. split; [exact Hin| apply Z.eqb_refl]. }
    congruence.
  - apply andb_prop in Hl as [_ Hr]. auto.
Qed.

Section ImmFacts.
Context `{Immediates}.
Hypothesis Hwf : imm_wf = true.

Lemma wf_shift : 3 <= SHIFT <= 7.
Proof.
  unfold imm_wf in Hwf. repeat rewrite andb_true_iff in Hwf. lia.
Qed.

Lemma wf_num : NUM = 0.
Proof.
  unfold imm_wf in Hwf. repeat rewrite andb_true_iff in Hwf.
  destruct Hwf as [[[[_ _] Hn] _] _]. lia.
Qed.

Lemma wf_tags_range : forall t, In t tags -> 0 <= t < 2 ^ SHIFT.
Proof.
  unfold imm_wf in Hwf. repeat rewrite andb_true_iff in Hwf.
  destruct Hwf as [[_ Hr] _]. intros t Ht.
  rewrite forallb_forall in Hr. specialize (Hr t Ht).
  rewrite andb_true_iff in Hr. lia.
Qed.

Lemma wf_nodup : NoDup tags.
Proof.
  unfold imm_wf in Hwf. repeat rewrite andb_true_iff in Hwf.
  destruct Hwf as [_ Hd]. apply nodupb_NoDup. exact Hd.
Qed.

Lemma pow_shift : 8 <= 2 ^ SHIFT <= 128.
Proof.
  pose proof wf_shift as Hs.
  assert (SHIFT = 3 \/ SHIFT = 4 \/ SHIFT = 5 \/ SHIFT = 6 \/ SHIFT = 7) as Hc by lia.
  destruct Hc as [E|[E|[E|[E|E]]]]; rewrite E; simpl; lia.
Qed.

Lemma encode_mul (n : Z) : encode n = wrap64 (n * 2 ^ SHIFT).
Proof.
  pose proof wf_shift. unfold encode. rewrite Z.shiftl_mul_pow2 by lia. reflexivity.
Qed.

(** An encoded word is a multiple of [2 ^ SHIFT]. *)
Lemma encode_div (n : Z) : encode n = (encode n / 2 ^ SHIFT) * 2 ^ SHIFT.
Proof.
  pose proof wf_shift as Hs. pose proof pow_shift.
  rewrite encode_mul, wrap64_eq.
  assert (2 ^ 64 = 2 ^ (64 - SHIFT) * 2 ^ SHIFT) as E.
  { rewrite <- Z.pow_add_r by lia. f_equal. lia. }
  set (k := (n * 2 ^ SHIFT + 2 ^ 63) / 2 ^ 64).
  rewrite E.
  replace (n * 2 ^ SHIFT - 2 ^ (64 - SHIFT) * 2 ^ SHIFT * k)
    with ((n - 2 ^ (64 - SHIFT) * k) * 2 ^ SHIFT) by ring.
  rewrite Z.div_mul by lia. reflexivity.
Qed.

End ImmFacts.

(** ** Running instruction sequences *)

Lemma exec_app (c1 c2 : ASM) (m : Machine) :
  exec (c1 ++ c2) m =
  match exec c1 m with Some m' => exec c2 m' | None => None end.
Proof.
  revert m; induction c1 as [|i c1 IH]; intro m; simpl; [reflexivity|].
  destruct (step i m); [apply IH|reflexivity].
Qed.

(** The byte arithmetic of [sal al, k; or al, B] on a flag in [rax],
    checked for every tag width and every [B] in the tag field. *)
Definition al_tail (k b bit : Z) : Z :=
  let y1 := Z.lor (Z.land bit (Z.lnot 255)) (Z.land (Z.shiftl (Z.land bit 255) k) 255) in
  Z.lor (Z.land y1 (Z.lnot 255)) (Z.land (Z.lor (Z.land y1 255) b) 255).

Lemma al_tail_ok (k b bit : Z) :
  3 <= k <= 7 -> 0 <= b < 2 ^ k -> bit = 0 \/ bit = 1 ->
  al_tail k b bit = Z.lor (Z.shiftl bit k) b.
Proof.
  intros Hk Hb Hbit.
  assert (forallb (fun k => forallb (fun b => forallb (fun bit =>
            al_tail k b bit =? Z.lor (Z.shiftl bit k) b) [0; 1])
            (map Z.of_nat (seq 0 (Z.to_nat (2 ^ k))))) [3; 4; 5; 6; 7] = true)
    as Hchk by (vm_compute; reflexivity).
  rewrite forallb_forall in Hchk.
  assert (In k [3; 4; 5; 6; 7]) as Hin by (simpl; lia).
  specialize (Hchk k Hin). rewrite forallb_forall in Hchk.
  assert (In b (map Z.of_nat (seq 0 (Z.to_nat (2 ^ k))))) as Hin'.
  { apply in_map_iff. exists (Z.to_nat b). split; [lia|].
    apply in_seq. lia. }
  specialize (Hchk b Hin'). rewrite forallb_forall in Hchk.
  assert (In bit [0; 1]) as Hin'' by (simpl; lia).
  specialize (Hchk bit Hin''). apply Z.eqb_eq. exact Hchk.
Qed.

Section CompareFacts.
Context `{Immediates}.
Hypothesis Hwf : imm_wf = true.

Lemma bool_in_tags : In BOOL tags.
Proof. simpl; tauto. Qed.

(** The comparison helper leaves the tagged boolean of its condition. *)
Lemma compare_run (a b : Operand) (cc : string) (m : Machine) (bit : bool) :
  cond cc (opval m a, opval m b) = Some bit ->
  exists m', exec (Prim.compare a b cc) m = Some m' /\
    rax m' = bool_word bit /\ stk m' = stk m.
Proof.
  intro Hc. unfold Prim.compare. cbn -[cond]. rewrite Hc. cbn -[cond].
  eexists; split; [reflexivity|]. split; [|reflexivity]. simpl.
  pose proof (wf_shift Hwf) as Hs.
  pose proof (wf_tags_range Hwf BOOL bool_in_tags) as Hb.
  assert (Z.land (Z.lor (Z.land (rax m) (-256)) (Z.land (if bit then 1 else 0) 255)) 255
          = if bit then 1 else 0) as E.
  { change (-256) with (Z.lnot 255).
    rewrite Z.land_lor_distr_l, <- Z.land_assoc.
    change (Z.land (Z.lnot 255) 255) with 0. rewrite Z.land_0_r, Z.lor_0_l.
    destruct bit; reflexivity. }
  rewrite E.
  pose proof (al_tail_ok SHIFT BOOL (if bit then 1 else 0) Hs Hb) as T.
  unfold al_tail in T. change (Z.lnot 255) with (-256) in T. unfold bool_word, TRUE, FALSE.
  destruct bit; rewrite T by lia; reflexivity.
Qed.

End CompareFacts.

(** ** Primitives *)

Section PrimProofs.
Context `{Immediates}.
Variables (AST State : Type) (si : State -> Z).
Variable eval : State -> AST -> ASM * State.

Lemma binop_run (s : State) (x y : AST) (va vb : Z) :
  Prim.keeps_si si eval ->
  Prim.operand_value si eval x va -> Prim.operand_value si eval y vb ->
  forall m, exists m2,
    exec (fst (Prim.binop si eval s x y)) m = Some m2 /\ rax m2 = vb /\
    stk m2 (si (snd (Prim.binop si eval s x y))) = va /\
    si (snd (Prim.binop si eval s x y)) = si s.
Proof.
  intros Hsi Hx Hy m. unfold Prim.binop.
  pose proof (Hsi s x) as Es1. specialize (Hx s m).
  destruct (eval s x) as [cx s1] eqn:E1. simpl in Es1, Hx.
  pose proof (Hsi s1 y) as Es2.
  destruct Hx as [m1 [Hm1 [Hr1 _]]].
  specialize (Hy s1 (set_stk m1 (si s1) (rax m1))).
  destruct (eval s1 y) as [cy s2] eqn:E2. simpl in Es2, Hy |- *.
  destruct Hy as [m2 [Hm2 [Hr2 Hst2]]].
  exists m2. rewrite exec_app, Hm1. simpl. rewrite Hm2.
  split; [reflexivity|]. split; [exact Hr2|]. split; [|congruence].
  rewrite Es2, Hst2 by lia. simpl. rewrite Z.eqb_refl. exact Hr1.
Qed.

Lemma plus_code (s : State) (x y : AST) :
  fst (Prim.plus si eval s x y) =
  fst (Prim.binop si eval s x y) ++ [Add RAX (Stack (si (snd (Prim.binop si eval s x y))))].
Proof. unfold Prim.plus. destruct (Prim.binop si eval s x y). reflexivity. Qed.

Lemma minus_code (s : State) (x y : AST) :
  fst (Prim.minus si eval s x y) =
  fst (Prim.binop si eval s x y) ++
  [Sub RAX (Stack (si (snd (Prim.binop si eval s x y))));
   Load RAX (si (snd (Prim.binop si eval s x y)))].
Proof. unfold Prim.minus. destruct (Prim.binop si eval s x y). reflexivity. Qed.

Lemma mul_code (s : State) (x y : AST) :
  fst (Prim.mul si eval s x y) =
  fst (Prim.binop si eval s x y) ++
  [Sar RAX SHIFT; Mul (Stack (si (snd (Prim.binop si eval s x y))))].
Proof. unfold Prim.mul. destruct (Prim.binop si eval s x y). reflexivity. Qed.

Lemma cmp_code (s : State) (x y : AST) :
  fst (Prim.eq si eval s x y) =
    fst (Prim.binop si eval s x y) ++
    Prim.compare (Stack (si (snd (Prim.binop si eval s x y)))) (Reg RAX) "sete" /\
  fst (Prim.lt si eval s x y) =
    fst (Prim.binop si eval s x y) ++
    Prim.compare (Stack (si (snd (Prim.binop si eval s x y)))) (Reg RAX) "setl" /\
  fst (Prim.gt si eval s x y) =
    fst (Prim.binop si eval s x y) ++
    Prim.compare (Stack (si (snd (Prim.binop si eval s x y)))) (Reg RAX) "setg" /\
  fst (Prim.lte si eval s x y) =
    fst (Prim.binop si eval s x y) ++
    Prim.compare (Stack (si (snd (Prim.binop si eval s x y)))) (Reg RAX) "setle" /\
  fst (Prim.gte si eval s x y) =
    fst (Prim.binop si eval s x y) ++
    Prim.compare (Stack (si (snd (Prim.binop si eval s x y)))) (Reg RAX) "setge".
Proof.
  unfold Prim.eq, Prim.lt, Prim.gt, Prim.lte, Prim.gte.
  destruct (Prim.binop si eval s x y). repeat split.
Qed.

End PrimProofs.

(** [zerop] (claim C1): the code of [zero?] is the operand's code followed
    by the comparison helper applied to the whole accumulator and the
    constant [NUM]; no masking instruction is emitted after the operand, and
    the accumulator ends as the tagged boolean of [rax = NUM]. *)
Theorem zerop_compares_unmasked_with_NUM `{Immediates}
    (AST State : Type) (eval : State -> AST -> ASM * State) (s : State) (e : AST) :
  fst (Prim.zerop eval s e) =
    fst (eval s e) ++
    [Cmp (Reg RAX) (Const NUM); Slice (SetAl "sete"); Slice MovzxRaxAl;
     Slice (SalAl SHIFT); Slice (OrAl BOOL)] /\
  (forall r v, ~ In (And r v) (Prim.compare (Reg RAX) (Const NUM) "sete")) /\
  (imm_wf = true -> forall m, exists m',
     exec (Prim.compare (Reg RAX) (Const NUM) "sete") m = Some m' /\
     rax m' = bool_word (rax m =? NUM)).
Proof.
  split; [|split].
  - unfold Prim.zerop. destruct (eval s e). reflexivity.
  - intros r v Hin. simpl in Hin. intuition discriminate.
  - intros Hwf m. destruct (compare_run Hwf (Reg RAX) (Const NUM) "sete" m (rax m =? NUM))
      as [m' [E [R _]]]; [reflexivity|].
    exists m'. split; assumption.
Qed.

Section EncodeArith.
Context `{Immediates}.
Hypothesis Hwf : imm_wf = true.

Lemma encode_wrap (a : Z) :
  encode a = a * 2 ^ SHIFT - 2 ^ 64 * ((a * 2 ^ SHIFT + 2 ^ 63) / 2 ^ 64).
Proof. rewrite (encode_mul Hwf), wrap64_eq. reflexivity. Qed.

Lemma encode_add (a b : Z) : wrap64 (encode b + encode a) = encode (a + b).
Proof.
  rewrite (encode_mul Hwf (a + b)). apply wrap64_congr.
  rewrite !encode_wrap.
  set (ka := (a * 2 ^ SHIFT + 2 ^ 63) / 2 ^ 64).
  set (kb := (b * 2 ^ SHIFT + 2 ^ 63) / 2 ^ 64).
  replace (b * 2 ^ SHIFT - 2 ^ 64 * kb + (a * 2 ^ SHIFT - 2 ^ 64 * ka) - (a + b) * 2 ^ SHIFT)
    with ((- kb - ka) * 2 ^ 64) by ring.
  apply Z_mod_mult.
Qed.

Lemma encode_sub (a b : Z) : wrap64 (encode a - encode b) = encode (a - b).
Proof.
  rewrite (encode_mul Hwf (a - b)). apply wrap64_congr.
  rewrite !encode_wrap.
  set (ka := (a * 2 ^ SHIFT + 2 ^ 63) / 2 ^ 64).
  set (kb := (b * 2 ^ SHIFT + 2 ^ 63) / 2 ^ 64).
  replace (a * 2 ^ SHIFT - 2 ^ 64 * ka - (b * 2 ^ SHIFT - 2 ^ 64 * kb) - (a - b) * 2 ^ SHIFT)
    with ((kb - ka) * 2 ^ 64) by ring.
  apply Z_mod_mult.
Qed.

(** [sar rax, SHIFT; mul qword [slot]] on two encoded operands. *)
Lemma encode_mul_ok (a b : Z) :
  wrap64 (to_u64 (Z.shiftr (encode b) SHIFT) * to_u64 (encode a)) = encode (a * b).
Proof.
  pose proof (wf_shift Hwf) as Hs. pose proof (pow_shift Hwf) as Hp.
  rewrite Z.shiftr_div_pow2 by lia.
  set (b' := encode b / 2 ^ SHIFT).
  assert (encode b = b' * 2 ^ SHIFT) as Hdiv by apply (encode_div Hwf).
  pose proof (encode_wrap b) as Eb. pose proof (encode_wrap a) as Ea.
  set (ka := (a * 2 ^ SHIFT + 2 ^ 63) / 2 ^ 64) in Ea.
  set (kb := (b * 2 ^ SHIFT + 2 ^ 63) / 2 ^ 64) in Eb.
  rewrite (encode_mul Hwf (a * b)). apply wrap64_congr.
  unfold to_u64. rewrite (Z.mod_eq b'), (Z.mod_eq (encode a)) by lia.
  set (q1 := b' / 2 ^ 64). set (q2 := encode a / 2 ^ 64).
  rewrite Ea.
  assert (b * 2 ^ SHIFT = b' * 2 ^ SHIFT + 2 ^ 64 * kb) as Hb by lia.
  replace (a * b * 2 ^ SHIFT) with (a * (b * 2 ^ SHIFT)) by ring. rewrite Hb.
  replace ((b' - 2 ^ 64 * q1) *
           (a * 2 ^ SHIFT - 2 ^ 64 * ka - 2 ^ 64 * q2) -
           a * (b' * 2 ^ SHIFT + 2 ^ 64 * kb))
    with ((- b' * ka - b' * q2 - q1 * a * 2 ^ SHIFT + 2 ^ 64 * q1 * ka
           + 2 ^ 64 * q1 * q2 - a * kb) * 2 ^ 64) by ring.
  apply Z_mod_mult.
Qed.

End EncodeArith.

(** [plus], [minus], [mul] (claim C2): on operands that evaluate to
    [encode a] and [encode b] (and compile without moving the cursor, as the
    contract of [emit::eval] requires), the emitted code leaves
    [encode (a + b)], [encode (a - b)] and [encode (a * b)] in the
    accumulator: subtraction is first minus second. *)
Theorem plus_minus_mul_fixnums `{Immediates} (AST State : Type) (si : State -> Z)
    (eval : State -> AST -> ASM * State) (Hwf : imm_wf = true)
    (Hsi : Prim.keeps_si si eval) (s : State) (x y : AST) (a b : Z)
    (Hx : Prim.operand_value si eval x (encode a))
    (Hy : Prim.operand_value si eval y (encode b)) (m : Machine) :
  (exists m', exec (fst (Prim.plus si eval s x y)) m = Some m' /\ rax m' = encode (a + b)) /\
  (exists m', exec (fst (Prim.minus si eval s x y)) m = Some m' /\ rax m' = encode (a - b)) /\
  (exists m', exec (fst (Prim.mul si eval s x y)) m = Some m' /\ rax m' = encode (a * b)).
Proof.
  destruct (binop_run _ _ si eval s x y (encode a) (encode b) Hsi Hx Hy m)
    as [m2 [E2 [R2 [S2 _]]]].
  split; [|split].
  - rewrite plus_code, exec_app, E2. simpl. eexists; split; [reflexivity|].
    simpl. rewrite R2, S2. apply (encode_add Hwf).
  - rewrite minus_code, exec_app, E2. simpl. eexists; split; [reflexivity|].
    simpl. rewrite Z.eqb_refl, R2, S2. apply (encode_sub Hwf).
  - rewrite mul_code, exec_app, E2. simpl. eexists; split; [reflexivity|].
    simpl. rewrite R2, S2. apply (encode_mul_ok Hwf).
Qed.

Section DivProofs.
Context `{Immediates}.
Hypothesis Hwf : imm_wf = true.

Definition fixnum_range (a : Z) : Prop := - 2 ^ (63 - SHIFT) <= a < 2 ^ (63 - SHIFT).

Lemma pow_split : 2 ^ (63 - SHIFT) * 2 ^ SHIFT = 2 ^ 63.
Proof.
  pose proof (wf_shift Hwf). rewrite <- Z.pow_add_r by lia. f_equal. lia.
Qed.

Lemma encode_in_range (a : Z) : fixnum_range a -> encode a = a * 2 ^ SHIFT.
Proof.
  intro Ha. unfold fixnum_range in Ha. pose proof pow_split. pose proof (pow_shift Hwf).
  rewrite (encode_mul Hwf). apply wrap64_id. nia.
Qed.

Lemma shiftr_encode (a : Z) : fixnum_range a -> Z.shiftr (encode a) SHIFT = a.
Proof.
  intro Ha. pose proof (wf_shift Hwf). pose proof (pow_shift Hwf).
  rewrite Z.shiftr_div_pow2 by lia. rewrite encode_in_range by exact Ha.
  apply Z.div_mul. lia.
Qed.

Lemma quot_bound (a b : Z) : b <> 0 -> Z.abs (Z.quot a b) <= Z.abs a.
Proof.
  intro Hb. rewrite <- Z.quot_abs by exact Hb.
  rewrite Z.quot_div_nonneg by lia.
  apply Z.div_le_upper_bound; nia.
Qed.

Lemma fixnum_range_word (a : Z) : fixnum_range a -> - 2 ^ 63 < a < 2 ^ 63.
Proof.
  unfold fixnum_range. pose proof pow_split. pose proof (pow_shift Hwf). nia.
Qed.

Lemma cqo_dividend (a : Z) : - 2 ^ 63 <= a < 2 ^ 63 ->
  (if a <? 0 then -1 else 0) * 2 ^ 64 + to_u64 a = a.
Proof.
  intro Ha. unfold to_u64. destruct (Z.ltb_spec a 0).
  - rewrite <- (Z.mod_add a 1 (2 ^ 64)) by lia.
    rewrite Z.mod_small by lia. lia.
  - rewrite Z.mod_small by lia. lia.
Qed.

End DivProofs.

Section DivCode.
Context `{Immediates}.
Variables (AST State : Type) (eval : State -> AST -> ASM * State).

Lemma div_code (s : State) (x y : AST) :
  fst (Prim.div eval s x y) =
  fst (eval s y) ++ [Sar RAX SHIFT; Slice MovRcxRax] ++ fst (eval (snd (eval s y)) x) ++
  [Sar RAX SHIFT; Slice MovRdx0; Slice Cqo; Slice IdivRcx].
Proof.
  unfold Prim.div. destruct (eval s y) as [cy s1]. simpl.
  destruct (eval s1 x) as [cx s2]. reflexivity.
Qed.

Lemma quotient_code (s : State) (x y : AST) :
  fst (Prim.quotient eval s x y) = fst (Prim.div eval s x y) ++ [Sal RAX SHIFT] /\
  fst (Prim.remainder eval s x y) =
    fst (Prim.div eval s x y) ++ [Mov (Reg RAX) (Reg RDX); Sal RAX SHIFT].
Proof.
  unfold Prim.quotient, Prim.remainder. destruct (Prim.div eval s x y). split; reflexivity.
Qed.

End DivCode.

Lemma div_run `{Immediates} (AST State : Type) (si : State -> Z)
    (eval : State -> AST -> ASM * State) (Hwf : imm_wf = true)
    (s : State) (x y : AST) (a b : Z)
    (Ha : fixnum_range a) (Hb : fixnum_range b) (Hb0 : b <> 0)
    (Hx : Prim.operand_value si eval x (encode a))
    (Hy : Prim.operand_value si eval y (encode b))
    (Hrcx : Prim.keeps_rcx eval x) (m : Machine) :
  exists md, exec (fst (Prim.div eval s x y)) m = Some md /\
    rax md = Z.quot a b /\ rdx md = Z.rem a b.
Proof.
  rewrite div_code.
  destruct (Hy s m) as [m1 [E1 [R1 _]]].
  rewrite exec_app, E1. cbn [app exec step get].
  set (m1' := set (set m1 RAX (Z.shiftr (rax m1) SHIFT)) RCX
                  (rax (set m1 RAX (Z.shiftr (rax m1) SHIFT)))).
  change (step_raw MovRcxRax (set m1 RAX (Z.shiftr (rax m1) SHIFT))) with (Some m1').
  destruct (Hx (snd (eval s y)) m1') as [m2 [E2 [R2 _]]].
  pose proof (Hrcx _ _ _ E2) as C2.
  assert (rcx m1' = b) as C1.
  { unfold m1'. simpl. rewrite R1. apply (shiftr_encode Hwf b Hb). }
  rewrite exec_app, E2. cbn [exec step get step_raw set rax rcx rdx].
  rewrite R2, (shiftr_encode Hwf a Ha).
  pose proof (fixnum_range_word Hwf a Ha) as Wa.
  pose proof (fixnum_range_word Hwf b Hb) as Wb.
  rewrite (cqo_dividend a ltac:(lia)), C2, C1.
  destruct (Z.eqb_spec b 0) as [Hz|_]; [contradiction|].
  pose proof (quot_bound a b Hb0) as Qb.
  assert (- 2 ^ 63 <= Z.quot a b < 2 ^ 63) as Hq.
  { clear - Wa Qb. generalize dependent (Z.quot a b). intros. lia. }
  replace (Z.quot a b <? - 2 ^ 63) with false
    by (symmetry; apply Z.ltb_ge; apply Hq).
  replace (2 ^ 63 <=? Z.quot a b) with false
    by (symmetry; apply Z.leb_gt; apply Hq).
  simpl. eexists; split; [reflexivity|]. split; reflexivity.
Qed.

(** [quotient] and [remainder] (claim C4): on fixnum operands (values in
    the fixnum range, divisor non-zero, and the dividend's code leaving
    [rcx] alone, as a literal does) the code leaves
    [encode (Z.quot a b)] and [encode (Z.rem a b)], truncating division,
    re-tagged by the final [sal]. *)
Theorem quotient_remainder_truncating `{Immediates} (AST State : Type) (si : State -> Z)
    (eval : State -> AST -> ASM * State) (Hwf : imm_wf = true)
    (s : State) (x y : AST) (a b : Z)
    (Ha : fixnum_range a) (Hb : fixnum_range b) (Hb0 : b <> 0)
    (Hx : Prim.operand_value si eval x (encode a))
    (Hy : Prim.operand_value si eval y (encode b))
    (Hrcx : Prim.keeps_rcx eval x) (m : Machine) :
  (exists m', exec (fst (Prim.quotient eval s x y)) m = Some m' /\
              rax m' = encode (Z.quot a b)) /\
  (exists m', exec (fst (Prim.remainder eval s x y)) m = Some m' /\
              rax m' = encode (Z.rem a b)).
Proof.
  destruct (div_run AST State si eval Hwf s x y a b Ha Hb Hb0 Hx Hy Hrcx m)
    as [md [Ed [Rq Rr]]].
  destruct (quotient_code AST State eval s x y) as [Cq Cr].
  split.
  - rewrite Cq, exec_app, Ed. simpl. eexists; split; [reflexivity|].
    simpl. rewrite Rq. reflexivity.
  - rewrite Cr, exec_app, Ed. simpl. eexists; split; [reflexivity|].
    simpl. rewrite Rr. reflexivity.
Qed.

(** [eq], [lt], [gt], [lte], [gte] (claim C6): on operands evaluating to
    the words [va] and [vb], the code leaves the tagged boolean of the
    signed comparison of [va] (first) with [vb] (second); [eq] gives [TRUE]
    exactly for identical words. *)
Theorem comparisons_tagged_booleans `{Immediates} (AST State : Type) (si : State -> Z)
    (eval : State -> AST -> ASM * State) (Hwf : imm_wf = true)
    (Hsi : Prim.keeps_si si eval) (s : State) (x y : AST) (va vb : Z)
    (Hx : Prim.operand_value si eval x va)
    (Hy : Prim.operand_value si eval y vb) (m : Machine) :
  (exists m', exec (fst (Prim.eq si eval s x y)) m = Some m' /\
              rax m' = bool_word (va =? vb)) /\
  (exists m', exec (fst (Prim.lt si eval s x y)) m = Some m' /\
              rax m' = bool_word (va <? vb)) /\
  (exists m', exec (fst (Prim.gt si eval s x y)) m = Some m' /\
              rax m' = bool_word (vb <? va)) /\
  (exists m', exec (fst (Prim.lte si eval s x y)) m = Some m' /\
              rax m' = bool_word (va <=? vb)) /\
  (exists m', exec (fst (Prim.gte si eval s x y)) m = Some m' /\
              rax m' = bool_word (vb <=? va)).
Proof.
  destruct (binop_run _ _ si eval s x y va vb Hsi Hx Hy m) as [m2 [E2 [R2 [S2 _]]]].
  destruct (cmp_code _ _ si eval s x y) as [Ceq [Clt [Cgt [Cle Cge]]]].
  set (sl := si (snd (Prim.binop si eval s x y))) in *.
  assert (forall cc bit, cond cc (va, vb) = Some bit ->
            exists m', exec (fst (Prim.binop si eval s x y) ++
                             Prim.compare (Stack sl) (Reg RAX) cc) m = Some m' /\
                       rax m' = bool_word bit) as Run.
  { intros cc bit Hc. rewrite exec_app, E2.
    destruct (compare_run Hwf (Stack sl) (Reg RAX) cc m2 bit) as [m' [E' [R' _]]].
    - simpl. rewrite S2, R2. exact Hc.
    - exists m'. split; assumption. }
  rewrite Ceq, Clt, Cgt, Cle, Cge.
  repeat split; apply Run; reflexivity.
Qed.

(** ** Runtime *)

Section TagFacts.
Context `{Immediates}.
Hypothesis Hwf : imm_wf = true.

Lemma MASK_ones : MASK = Z.ones SHIFT.
Proof. unfold MASK. rewrite Z.ones_equiv. lia. Qed.

Lemma tag_mod (v : Z) : Rt.tag v = v mod 2 ^ SHIFT.
Proof.
  pose proof (wf_shift Hwf). unfold Rt.tag. rewrite MASK_ones, Z.land_ones by lia.
  reflexivity.
Qed.

(** A boxed word: an address aligned to the tag field plus a tag. *)
Lemma tag_boxed (p t : Z) :
  p mod 2 ^ SHIFT = 0 -> 0 <= t < 2 ^ SHIFT -> Rt.tag (p + t) = t.
Proof.
  intros Hp Ht. pose proof (pow_shift Hwf). rewrite tag_mod.
  rewrite Z.add_mod, Hp by lia. rewrite Z.add_0_l, Z.mod_mod, Z.mod_small by lia. reflexivity.
Qed.

Lemma lor_boxed (p t : Z) :
  p mod 2 ^ SHIFT = 0 -> 0 <= t < 2 ^ SHIFT -> Z.lor p t = p + t.
Proof.
  intros Hp Ht. pose proof (wf_shift Hwf). pose proof (pow_shift Hwf).
  assert (Z.land p t = 0) as Hand.
  { assert (t = Z.land t (Z.ones SHIFT)) as Et.
    { rewrite Z.land_ones by lia. rewrite Z.mod_small by lia. reflexivity. }
    rewrite Et, (Z.land_comm t), Z.land_assoc, Z.land_ones, Hp by lia.
    apply Z.land_0_l. }
  rewrite Z.add_nocarry_lxor by exact Hand.
  symmetry. apply Z.lxor_lor. exact Hand.
Qed.

Lemma testbit_small (b : Z) : 0 <= b < 2 ^ SHIFT -> Z.testbit b SHIFT = false.
Proof.
  intro Hb. pose proof (wf_shift Hwf).
  rewrite Z.testbit_eqb by lia. rewrite Z.div_small by exact Hb. reflexivity.
Qed.

Lemma TRUE_FALSE : TRUE <> FALSE.
Proof.
  pose proof (wf_shift Hwf) as Hs.
  pose proof (wf_tags_range Hwf BOOL bool_in_tags) as Hb.
  intro E. apply (f_equal (fun w => Z.testbit w SHIFT)) in E.
  unfold TRUE, FALSE in E. rewrite !Z.lor_spec, !Z.shiftl_spec in E by lia.
  rewrite Z.sub_diag, testbit_small in E by exact Hb. discriminate.
Qed.

End TagFacts.

(** [symbol_eq] (claim C9): [TRUE] exactly for two identical words with the
    [SYM] tag, [FALSE] otherwise; so a non-symbol compared with itself gives
    [FALSE]. *)
Theorem symbol_eq_identity_and_tag `{Immediates} (Hwf : imm_wf = true) (a b : Z) :
  (Rt.symbol_eq a b = TRUE <-> a = b /\ Rt.tag a = SYM) /\
  (Rt.symbol_eq a b = FALSE <-> ~ (a = b /\ Rt.tag a = SYM)) /\
  (Rt.tag a <> SYM -> Rt.symbol_eq a a = FALSE).
Proof.
  pose proof (TRUE_FALSE Hwf) as TF. unfold Rt.symbol_eq.
  destruct (Z.eqb_spec a b), (Z.eqb_spec (Rt.tag a) SYM); simpl;
    repeat split; intros; try tauto; try congruence.
  all: rewrite Z.eqb_refl; simpl;
       destruct (Z.eqb_spec (Rt.tag a) SYM); [contradiction|reflexivity].
Qed.

(** *** Bytes in memory *)

Lemma mod_mul_split (w k : Z) : 0 < k ->
  w mod (256 * k) = w mod 256 + 256 * ((w / 256) mod k).
Proof.
  intro Hk. symmetry. apply Z.mod_unique with (q := (w / 256) / k).
  - left. pose proof (Z.mod_pos_bound w 256). pose proof (Z.mod_pos_bound (w / 256) k Hk). nia.
  - pose proof (Z.div_mod w 256). pose proof (Z.div_mod (w / 256) k). nia.
Qed.

Lemma le_val_bytes (n : nat) (w : Z) :
  Rt.le_val (Rt.le_bytes n w) = w mod 2 ^ (8 * Z.of_nat n).
Proof.
  revert w; induction n as [|n IH]; intro w.
  - simpl. rewrite Z.mod_1_r. reflexivity.
  - simpl Rt.le_bytes. simpl Rt.le_val. rewrite IH.
    replace (8 * Z.of_nat (S n)) with (8 + 8 * Z.of_nat n) by lia.
    rewrite Z.pow_add_r by lia. rewrite mod_mul_split; [reflexivity|].
    apply Z.pow_pos_nonneg; lia.
Qed.

Lemma le_bytes_length (n : nat) (w : Z) : List.length (Rt.le_bytes n w) = n.
Proof. revert w; induction n; intro w; simpl; [reflexivity|]. rewrite IHn. reflexivity. Qed.

Lemma wrap64_le_val (a : Z) : - 2 ^ 63 <= a < 2 ^ 63 ->
  wrap64 (Rt.le_val (Rt.le_bytes 8 a)) = a.
Proof.
  intro Ha. rewrite le_val_bytes. change (8 * Z.of_nat 8) with 64.
  rewrite <- (wrap64_id a) at 2 by exact Ha. apply wrap64_congr.
  rewrite Zminus_mod, Z.mod_mod, Z.sub_diag by lia. reflexivity.
Qed.

Lemma store_bytes_some (m : list Z) (a : Z) (bs : list Z) (m' : list Z) :
  Rt.store_bytes m a bs = Some m' ->
  0 <= a /\ a + Z.of_nat (List.length bs) <= Z.of_nat (List.length m) /\
  m' = stored m (Z.to_nat a) bs.
Proof.
  unfold Rt.store_bytes. destruct ((0 <=? a) && _) eqn:E; [|discriminate].
  intro Hm. injection Hm as <-. apply andb_prop in E as [E1 E2].
  apply Z.leb_le in E1. apply Z.leb_le in E2. repeat split; assumption.
Qed.

Lemma read_bytes_some (m : list Z) (c : Z) (n : nat) :
  0 <= c -> c + Z.of_nat n <= Z.of_nat (List.length m) ->
  Rt.read_bytes m c n = Some (firstn n (skipn (Z.to_nat c) m)).
Proof.
  intros H1 H2. unfold Rt.read_bytes.
  apply Z.leb_le in H1. apply Z.leb_le in H2. rewrite H1, H2. reflexivity.
Qed.

Lemma stored_length (m bs : list Z) (a : nat) :
  (a + List.length bs <= List.length m)%nat -> List.length (stored m a bs) = List.length m.
Proof.
  intro Hl. unfold stored. rewrite !length_app, length_firstn, length_skipn. lia.
Qed.

Lemma stored_nth (m bs : list Z) (a i : nat) :
  (a + List.length bs <= List.length m)%nat ->
  nth i (stored m a bs) 0 =
  if (i <? a)%nat then nth i m 0
  else if (i <? a + List.length bs)%nat then nth (i - a) bs 0 else nth i m 0.
Proof.
  intro Hl. unfold stored.
  assert (List.length (firstn a m) = a) as La by (rewrite length_firstn; lia).
  destruct (Nat.ltb_spec i a).
  - rewrite app_nth1 by lia. rewrite nth_firstn.
    destruct (Nat.ltb_spec i a); [reflexivity|lia].
  - rewrite app_nth2 by lia. rewrite La.
    destruct (Nat.ltb_spec i (a + List.length bs)).
    + rewrite app_nth1 by lia. reflexivity.
    + rewrite app_nth2 by lia. rewrite nth_skipn. f_equal. lia.
Qed.

(** Two memories agreeing on a window read the same bytes there. *)
Lemma window_eq (m1 m2 : list Z) (c n : nat) :
  List.length m1 = List.length m2 ->
  (forall i, (c <= i < c + n)%nat -> nth i m1 0 = nth i m2 0) ->
  firstn n (skipn c m1) = firstn n (skipn c m2).
Proof.
  intros Hl Hn. apply nth_ext with (d := 0) (d' := 0).
  - rewrite !length_firstn, !length_skipn, Hl. reflexivity.
  - intros i Hi. rewrite length_firstn, length_skipn in Hi.
    rewrite !nth_firstn. destruct (Nat.ltb_spec i n); [|reflexivity].
    rewrite !nth_skipn. apply Hn. lia.
Qed.

Lemma window_stored (m bs : list Z) (a : nat) :
  (a + List.length bs <= List.length m)%nat ->
  firstn (List.length bs) (skipn a (stored m a bs)) = bs.
Proof.
  intro Hl. apply nth_ext with (d := 0) (d' := 0).
  - rewrite length_firstn, length_skipn, stored_length by exact Hl. lia.
  - intros i Hi. rewrite length_firstn, length_skipn, stored_length in Hi by exact Hl.
    rewrite nth_firstn, nth_skipn, stored_nth by exact Hl.
    destruct (Nat.ltb_spec i (List.length bs)); [|lia].
    destruct (Nat.ltb_spec (a + i) a); [lia|].
    destruct (Nat.ltb_spec (a + i) (a + List.length bs)); [|lia].
    f_equal. lia.
Qed.

Lemma load64_window (m : list Z) (c : Z) (bs : list Z) :
  0 <= c -> c + 8 <= Z.of_nat (List.length m) ->
  firstn 8 (skipn (Z.to_nat c) m) = bs ->
  Rt.load64 m c = Some (wrap64 (Rt.le_val bs)).
Proof.
  intros H1 H2 Hw. unfold Rt.load64, Rt.load_u64.
  rewrite read_bytes_some by (simpl; lia). rewrite Hw. reflexivity.
Qed.

Lemma cons_at_some (m m' : list Z) (p a b : Z) :
  Rt.cons_at m p a b = Some m' ->
  0 <= p /\ p + 16 <= Z.of_nat (List.length m) /\
  List.length m' = List.length m /\
  firstn 8 (skipn (Z.to_nat p) m') = Rt.le_bytes 8 a /\
  firstn 8 (skipn (Z.to_nat (p + 8)) m') = Rt.le_bytes 8 b.
Proof.
  unfold Rt.cons_at.
  destruct (Rt.store_bytes m p (Rt.le_bytes 8 a)) as [m1|] eqn:E1; [|discriminate].
  intro E2.
  apply store_bytes_some in E1 as (Hp & Hl1 & ->).
  apply store_bytes_some in E2 as (_ & Hl2 & ->).
  rewrite le_bytes_length in Hl1, Hl2.
  assert (List.length (stored m (Z.to_nat p) (Rt.le_bytes 8 a)) = List.length m) as L1
    by (apply stored_length; rewrite le_bytes_length; lia).
  rewrite L1 in Hl2.
  assert (Z.to_nat (p + 8) + List.length (Rt.le_bytes 8 b) <=
          List.length (stored m (Z.to_nat p) (Rt.le_bytes 8 a)))%nat as B2
    by (rewrite le_bytes_length, L1; lia).
  split; [exact Hp|]. split; [lia|].
  split; [rewrite stored_length by exact B2; exact L1|].
  split.
  - transitivity (firstn (List.length (Rt.le_bytes 8 a))
                    (skipn (Z.to_nat p) (stored m (Z.to_nat p) (Rt.le_bytes 8 a)))).
    2: apply window_stored; rewrite le_bytes_length; lia.
    rewrite le_bytes_length. apply window_eq.
    + rewrite stored_length by exact B2. reflexivity.
    + intros i Hi.
      rewrite stored_nth by exact B2.
      destruct (Nat.ltb_spec i (Z.to_nat (p + 8))); [reflexivity|lia].
  - rewrite <- (le_bytes_length 8 b) at 1. apply window_stored. exact B2.
Qed.

Lemma pair_in_tags `{Immediates} : In PAIR tags.
Proof. unfold tags. simpl. tauto. Qed.

(** [car] and [cdr] (claim C8): on a word whose tag is not [PAIR] both
    abort (the [assert!] fails, there is no other outcome); on a [PAIR]
    word they read word 0 and word 1 of the untagged address; and on the
    pair built at an aligned address [p] from [a] and [b] they return [a]
    and [b]. *)
Theorem car_cdr_assert_and_read `{Immediates} (Hwf : imm_wf = true) :
  (forall m v, Rt.tag v <> PAIR -> Rt.car m v = None /\ Rt.cdr m v = None) /\
  (forall m v, Rt.tag v = PAIR ->
     Rt.car m v = Rt.load64 m (v - PAIR) /\ Rt.cdr m v = Rt.load64 m (v - PAIR + 8)) /\
  (forall m m' p a b,
     p mod 2 ^ SHIFT = 0 ->
     - 2 ^ 63 <= a < 2 ^ 63 -> - 2 ^ 63 <= b < 2 ^ 63 ->
     Rt.cons_at m p a b = Some m' ->
     Rt.car m' (Z.lor p PAIR) = Some a /\ Rt.cdr m' (Z.lor p PAIR) = Some b).
Proof.
  split; [|split].
  - intros m v Hv. unfold Rt.car, Rt.cdr.
    destruct (Z.eqb_spec (Rt.tag v) PAIR); [contradiction|]. split; reflexivity.
  - intros m v Hv. unfold Rt.car, Rt.cdr. rewrite Hv, Z.eqb_refl. split; reflexivity.
  - intros m m' p a b Hp Ha Hb Hc.
    pose proof (wf_tags_range Hwf PAIR pair_in_tags) as Ht.
    apply cons_at_some in Hc as (Hp0 & Hlen & Hl' & Wa & Wb).
    rewrite lor_boxed by assumption.
    unfold Rt.car, Rt.cdr. rewrite tag_boxed, Z.eqb_refl by assumption.
    replace (p + PAIR - PAIR) with p by lia.
    rewrite (load64_window m' p (Rt.le_bytes 8 a)) by (lia || exact Wa).
    rewrite (load64_window m' (p + 8) (Rt.le_bytes 8 b)) by (lia || exact Wb).
    rewrite !wrap64_le_val by assumption. split; reflexivity.
Qed.

(** ** The printer *)

Section PrintFacts.
Context `{Immediates}.
Hypothesis Hwf : imm_wf = true.

Ltac tags_distinct :=
  let N := fresh "N" in
  pose proof (wf_nodup Hwf) as N; unfold tags in N;
  repeat match goal with N : NoDup (_ :: _) |- _ => inversion N; clear N end;
  simpl in *.

Ltac classify_by_distinct :=
  tags_distinct; unfold Rt.classify;
  repeat match goal with |- context [?a =? ?b] => destruct (Z.eqb_spec a b) end;
  solve [reflexivity | exfalso; intuition congruence].

Lemma classify_NUM : Rt.classify NUM = Some Rt.KNum.
Proof. classify_by_distinct. Qed.
Lemma classify_CHAR : Rt.classify CHAR = Some Rt.KChar.
Proof. classify_by_distinct. Qed.
Lemma classify_PAIR : Rt.classify PAIR = Some Rt.KPair.
Proof. classify_by_distinct. Qed.
Lemma classify_STR : Rt.classify STR = Some Rt.KStr.
Proof. classify_by_distinct. Qed.
Lemma classify_VEC : Rt.classify VEC = Some Rt.KVec.
Proof. classify_by_distinct. Qed.

Lemma classify_unknown (t : Z) : ~ In t tags -> Rt.classify t = None.
Proof.
  unfold tags. simpl. intro Hn. unfold Rt.classify.
  repeat match goal with |- context [?a =? ?b] => destruct (Z.eqb_spec a b) end;
  solve [reflexivity | exfalso; intuition congruence].
Qed.

Lemma tag_of_tag (t : Z) : In t tags -> Rt.tag t = t.
Proof.
  intro Ht. pose proof (wf_tags_range Hwf t Ht).
  rewrite <- (Z.add_0_l t) at 1. apply (tag_boxed Hwf); [reflexivity|assumption].
Qed.

Lemma tag_encode (n : Z) : Rt.tag (encode n) = NUM.
Proof.
  pose proof (pow_shift Hwf). rewrite (wf_num Hwf), (tag_mod Hwf).
  rewrite (encode_div Hwf n). apply Z.mod_mul. lia.
Qed.

Lemma shiftl_aligned (c : Z) : Z.shiftl c SHIFT mod 2 ^ SHIFT = 0.
Proof.
  pose proof (wf_shift Hwf). pose proof (pow_shift Hwf).
  rewrite Z.shiftl_mul_pow2 by lia. apply Z.mod_mul. lia.
Qed.

Lemma encode_char_parts (c : Z) : 0 <= c < 256 ->
  Rt.tag (encode_char c) = CHAR /\ Z.land (Z.shiftr (encode_char c) SHIFT) 255 = c.
Proof.
  intro Hc. pose proof (wf_shift Hwf). pose proof (pow_shift Hwf).
  assert (In CHAR tags) as Hin by (unfold tags; simpl; tauto).
  pose proof (wf_tags_range Hwf CHAR Hin).
  unfold encode_char. rewrite (lor_boxed Hwf) by (apply shiftl_aligned || assumption).
  split; [apply (tag_boxed Hwf); [apply shiftl_aligned|assumption]|].
  rewrite Z.shiftr_div_pow2, Z.shiftl_mul_pow2 by lia.
  rewrite Z.div_add_l, Z.div_small, Z.add_0_r by lia.
  change 255 with (Z.ones 8). rewrite Z.land_ones, Z.mod_small by lia. reflexivity.
Qed.

Lemma boxed_parts (p t : Z) : In t tags -> p mod 2 ^ SHIFT = 0 ->
  Z.lor p t = p + t /\ Rt.tag (Z.lor p t) = t.
Proof.
  intros Ht Hp. pose proof (wf_tags_range Hwf t Ht).
  rewrite (lor_boxed Hwf) by assumption. split; [reflexivity|].
  apply (tag_boxed Hwf); assumption.
Qed.

Lemma print_pair (f : nat) (m : list Z) (v a d : Z) (nested : bool) :
  Rt.tag v = PAIR -> Rt.car m v = Some a -> Rt.cdr m v = Some d ->
  Rt.print (S f) m v nested =
  Rt.then_ (Rt.when_not nested "(")
    (Rt.then_ (Rt.print f m a false)
      (Rt.then_ (if d =? NIL then Rt.emit EmptyString
                 else if negb (Rt.tag d =? PAIR)
                 then Rt.then_ (Rt.emit " . ") (Rt.print f m d false)
                 else Rt.then_ (Rt.emit " ") (Rt.print f m d true))
        (Rt.when_not nested ")"))).
Proof.
  intros Ht Ha Hd. cbn [Rt.print]. rewrite Ht, classify_PAIR, Ha, Hd. reflexivity.
Qed.

Lemma print_num (f : nat) (m : list Z) (n : Z) (nested : bool) :
  fixnum_range n -> Rt.print (S f) m (encode n) nested = Rt.emit (show_Z n).
Proof.
  intro Hn. cbn [Rt.print]. rewrite tag_encode, classify_NUM.
  rewrite (shiftr_encode Hwf) by exact Hn. reflexivity.
Qed.

Lemma tags_neq : NUM <> NIL /\ NUM <> PAIR /\ PAIR <> NIL.
Proof. tags_distinct. intuition congruence. Qed.

Lemma small_fixnum (n : Z) : - 2 ^ 56 <= n < 2 ^ 56 -> fixnum_range n.
Proof.
  intro Hn. pose proof (wf_shift Hwf). unfold fixnum_range.
  assert (2 ^ 56 <= 2 ^ (63 - SHIFT)) by (apply Z.pow_le_mono_r; lia). lia.
Qed.

End PrintFacts.

(** [print] (claim C7) on the spec's examples, with the objects laid out as
    §3 describes them (a pair is two words, car then cdr; a vector starts
    with its element count; a string object has its length word and then
    its bytes, which the decoder reads up to the terminating NUL): the pair
    of [encode 1] and [encode 2] prints as [(1 . 2)], the proper list of
    1, 2, 3 as [(1 2 3)], an empty vector as [[]], the string object holding
    "hi" as the quoted text, the character 10 as [#\newline]; a word whose
    tag is none of the eight tag constants makes [print] abort. *)
Theorem print_examples `{Immediates} (Hwf : imm_wf = true) :
  (forall fuel m p, (2 <= fuel)%nat -> p mod 2 ^ SHIFT = 0 ->
     Rt.load64 m p = Some (encode 1) -> Rt.load64 m (p + 8) = Some (encode 2) ->
     Rt.print fuel m (Z.lor p PAIR) false = ("(1 . 2)"%string, Rt.Done)) /\
  (forall fuel m p1 p2 p3, (4 <= fuel)%nat ->
     p1 mod 2 ^ SHIFT = 0 -> p2 mod 2 ^ SHIFT = 0 -> p3 mod 2 ^ SHIFT = 0 ->
     Rt.load64 m p1 = Some (encode 1) -> Rt.load64 m (p1 + 8) = Some (Z.lor p2 PAIR) ->
     Rt.load64 m p2 = Some (encode 2) -> Rt.load64 m (p2 + 8) = Some (Z.lor p3 PAIR) ->
     Rt.load64 m p3 = Some (encode 3) -> Rt.load64 m (p3 + 8) = Some NIL ->
     Rt.print fuel m (Z.lor p1 PAIR) false = ("(1 2 3)"%string, Rt.Done)) /\
  (forall fuel m p nested, (1 <= fuel)%nat -> p mod 2 ^ SHIFT = 0 ->
     Rt.load64 m p = Some 0 ->
     Rt.print fuel m (Z.lor p VEC) nested = ("[]"%string, Rt.Done)) /\
  (forall fuel m p nested, (1 <= fuel)%nat -> 0 <= p -> p mod 2 ^ SHIFT = 0 ->
     Rt.load64 m p = Some 2 ->
     firstn 3 (skipn (Z.to_nat (p + 8)) m) = [104; 105; 0] ->
     Rt.print fuel m (Z.lor p STR) nested = (append Rt.dq (append "hi" Rt.dq), Rt.Done)) /\
  (forall fuel m nested, (1 <= fuel)%nat ->
     Rt.print fuel m (encode_char 10) nested = ("#\newline"%string, Rt.Done)) /\
  (forall fuel m v nested, ~ In (Rt.tag v) tags ->
     Rt.print (S fuel) m v nested = (EmptyString, Rt.Abort)).
Proof.
  pose proof (tags_neq Hwf) as (NN & NP & PN).
  assert (In PAIR tags) as InP by (unfold tags; simpl; tauto).
  assert (In NIL tags) as InN by (unfold tags; simpl; tauto).
  assert (In VEC tags) as InV by (unfold tags; simpl; tauto).
  assert (In STR tags) as InS by (unfold tags; simpl; tauto).
  assert (forall q, q mod 2 ^ SHIFT = 0 -> Z.lor q PAIR <> NIL) as PnotN.
  { intros q Hq E. apply PN.
    rewrite <- (proj2 (boxed_parts Hwf q PAIR InP Hq)), E.
    apply (tag_of_tag Hwf). exact InN. }
  assert (forall n, encode n <> NIL) as EnotN.
  { intros n E. apply NN. rewrite <- (tag_encode Hwf n), E.
    apply (tag_of_tag Hwf). exact InN. }
  assert (forall m q a d, q mod 2 ^ SHIFT = 0 ->
            Rt.load64 m q = Some a -> Rt.load64 m (q + 8) = Some d ->
            Rt.tag (Z.lor q PAIR) = PAIR /\
            Rt.car m (Z.lor q PAIR) = Some a /\ Rt.cdr m (Z.lor q PAIR) = Some d) as Cell.
  { intros m q a d Hq Ha Hd.
    destruct (boxed_parts Hwf q PAIR InP Hq) as [E T].
    unfold Rt.car, Rt.cdr. rewrite T, Z.eqb_refl, E.
    replace (q + PAIR - PAIR) with q by lia. auto. }
  assert (forall n, (Rt.tag (encode n) =? PAIR) = false) as NumNotPair.
  { intro n. rewrite (tag_encode Hwf). apply Z.eqb_neq. exact NP. }
  split; [|split; [|split; [|split; [|split]]]].
  - intros fuel m p Hf Hp H1 H2.
    destruct fuel as [|[|f]]; [lia|lia|].
    destruct (Cell m p _ _ Hp H1 H2) as (T & Ca & Cd).
    rewrite (print_pair Hwf _ _ _ _ _ _ T Ca Cd).
    rewrite (proj2 (Z.eqb_neq _ _) (EnotN 2)), NumNotPair.
    rewrite !(print_num Hwf) by (apply (small_fixnum Hwf); lia).
    reflexivity.
  - intros fuel m p1 p2 p3 Hf Hp1 Hp2 Hp3 H1 H2 H3 H4 H5 H6.
    destruct fuel as [|[|[|[|f]]]]; try lia.
    destruct (Cell m p1 _ _ Hp1 H1 H2) as (T1 & Ca1 & Cd1).
    destruct (Cell m p2 _ _ Hp2 H3 H4) as (T2 & Ca2 & Cd2).
    destruct (Cell m p3 _ _ Hp3 H5 H6) as (T3 & Ca3 & Cd3).
    rewrite (print_pair Hwf _ _ _ _ _ _ T1 Ca1 Cd1).
    rewrite (proj2 (Z.eqb_neq _ _) (PnotN p2 Hp2)), T2, Z.eqb_refl.
    cbv beta iota delta [negb].
    rewrite (print_pair Hwf _ _ _ _ _ _ T2 Ca2 Cd2).
    rewrite (proj2 (Z.eqb_neq _ _) (PnotN p3 Hp3)), T3, Z.eqb_refl.
    cbv beta iota delta [negb].
    rewrite (print_pair Hwf _ _ _ _ _ _ T3 Ca3 Cd3).
    rewrite Z.eqb_refl.
    rewrite !(print_num Hwf) by (apply (small_fixnum Hwf); lia).
    reflexivity.
  - intros fuel m p nested Hf Hp H0.
    destruct fuel as [|f]; [lia|].
    destruct (boxed_parts Hwf p VEC InV Hp) as [E T].
    cbn [Rt.print]. rewrite T, (classify_VEC Hwf).
    unfold Rt.vec_len. rewrite T, Z.eqb_refl, E.
    replace (p + VEC - VEC) with p by lia. rewrite H0. reflexivity.
  - intros fuel m p nested Hf Hp0 Hp Hl Hb.
    destruct fuel as [|f]; [lia|].
    destruct (boxed_parts Hwf p STR InS Hp) as [E T].
    cbn [Rt.print]. rewrite T, (classify_STR Hwf).
    unfold Rt.str_str, Rt.cstr_at. rewrite T, Z.eqb_refl, E.
    replace (p + STR - STR + 8) with (p + 8) by lia.
    replace (0 <=? p + 8) with true by (symmetry; apply Z.leb_le; lia).
    rewrite <- (firstn_skipn 3 (skipn (Z.to_nat (p + 8)) m)), Hb.
    reflexivity.
  - intros fuel m nested Hf.
    destruct fuel as [|f]; [lia|].
    destruct (encode_char_parts Hwf 10) as [T C]; [lia|].
    cbn [Rt.print]. rewrite T, (classify_CHAR Hwf), C. reflexivity.
  - intros fuel m v nested Hv.
    cbn [Rt.print]. rewrite (classify_unknown _ Hv). reflexivity.
Qed.

(** ** C strings and lossy decoding *)

Lemma take_cstr_no0 (l c : list Z) : Rt.take_cstr l = Some c -> ~ In 0 c.
Proof.
  revert c; induction l as [|b r IH]; intros c; simpl; [discriminate|].
  destruct (Z.eqb_spec b 0).
  - intro E. injection E as <-. simpl. tauto.
  - destruct (Rt.take_cstr r) as [c'|] eqn:E; simpl; [|discriminate].
    intro E'. injection E' as <-. simpl. specialize (IH c' eq_refl). intuition.
Qed.

Lemma take_cstr_app (l r : list Z) :
  ~ In 0 l -> Rt.take_cstr (l ++ r) = option_map (app l) (Rt.take_cstr r).
Proof.
  induction l as [|b l IH]; intro Hl; simpl.
  - destruct (Rt.take_cstr r); reflexivity.
  - destruct (Z.eqb_spec b 0) as [E|E]; [exfalso; apply Hl; left; congruence|].
    rewrite IH by (simpl in Hl; tauto). destruct (Rt.take_cstr r); reflexivity.
Qed.

Ltac split_lossy :=
  repeat match goal with
  | |- context [if ?c then _ else _] => destruct c
  | |- context [match ?x with _ => _ end] => destruct x
  end.

(** Every byte [lossy] emits is an input byte or a byte of U+FFFD. *)
Lemma lossy_Forall (P : Z -> Prop) (f : nat) (l : list Z) :
  Forall P Rt.REPLACEMENT -> Forall P l -> Forall P (Rt.lossy f l).
Proof.
  intro HR. unfold Rt.REPLACEMENT in HR.
  inversion HR as [|? ? R1 HR1]; inversion HR1 as [|? ? R2 HR2];
    inversion HR2 as [|? ? R3 _]; subst; clear HR HR1 HR2.
  revert l; induction f as [|f IH]; intros l Hl; simpl; [constructor|].
  destruct l as [|b r]; [constructor|].
  split_lossy;
    repeat match goal with H : Forall _ (_ :: _) |- _ => inversion H; subst; clear H end;
    repeat (apply Forall_app; split); try assumption;
    repeat (constructor; [assumption|]); apply IH; repeat constructor; assumption.
Qed.

Lemma lossy_length (f : nat) (l : list Z) :
  (List.length l <= f)%nat -> (List.length l <= List.length (Rt.lossy f l))%nat.
Proof.
  revert l; induction f as [|f IH]; intros l Hl; simpl.
  - destruct l; simpl in *; lia.
  - destruct l as [|b r]; [simpl; lia|].
    split_lossy; simpl in *; rewrite ?length_app; simpl;
    match goal with |- context [Rt.lossy f ?l] =>
      let H := fresh in assert (H := IH l ltac:(simpl in *; lia)) end;
    simpl in *; lia.
Qed.

(** Decoding the bytes at [a] as a C string gives back [bs] only when the
    first NUL is right after [bs]. *)
Lemma cstr_decode_differs (m : list Z) (a : Z) (bs : list Z) :
  0 <= a -> firstn (List.length bs) (skipn (Z.to_nat a) m) = bs ->
  (In 0 bs \/ (~ In 0 bs /\ nth_error m (Z.to_nat a + List.length bs) <> Some 0)) ->
  option_map Rt.to_string_lossy (Rt.cstr_at m a) <> Some bs.
Proof.
  intros Ha Hw Hc. unfold Rt.cstr_at.
  replace (0 <=? a) with true by (symmetry; apply Z.leb_le; exact Ha).
  set (rest := skipn (List.length bs) (skipn (Z.to_nat a) m)).
  assert (skipn (Z.to_nat a) m = bs ++ rest) as Es.
  { unfold rest. rewrite <- Hw at 1. symmetry. apply firstn_skipn. }
  rewrite Es. destruct Hc as [H0 | [Hn0 Hnext]].
  - destruct (Rt.take_cstr (bs ++ rest)) as [c|] eqn:Ec; simpl; [|discriminate].
    intro E. injection E as E. apply take_cstr_no0 in Ec.
    assert (Forall (fun x => x <> 0) (Rt.to_string_lossy c)) as F.
    { apply lossy_Forall.
      - unfold Rt.REPLACEMENT. repeat constructor; discriminate.
      - apply Forall_forall. intros x Hx E0. subst. contradiction. }
    rewrite E in F. rewrite Forall_forall in F. exact (F 0 H0 eq_refl).
  - rewrite take_cstr_app by exact Hn0.
    assert (nth_error rest 0 = nth_error m (Z.to_nat a + List.length bs)) as Er.
    { unfold rest. rewrite nth_error_skipn, nth_error_skipn. f_equal. lia. }
    destruct rest as [|x r'].
    + simpl. discriminate.
    + simpl in Er. simpl. destruct (Z.eqb_spec x 0) as [E0|E0]; [congruence|].
      destruct (Rt.take_cstr r') as [c|]; simpl; [|discriminate].
      intro E. injection E as E.
      assert (Hl := lossy_length (List.length (bs ++ x :: c)) (bs ++ x :: c) (le_n _)).
      unfold Rt.to_string_lossy in E. rewrite E in Hl.
      rewrite length_app in Hl. simpl in Hl. lia.
Qed.

(** The runtime decodes a string's text as a C string (claim C10): for a
    string object at the aligned address [p] whose length word is the
    number of its bytes [bs], if [bs] holds a NUL, or holds none and the
    byte after it is not a NUL, then the decoded text is not [bs]: the file
    [rt_write] writes, the text [print] quotes and the path [rt_open_write]
    creates or [rt_open_read] opens all differ from [bs], and a symbol
    whose name bytes are such a [bs] has a decoded name other than [bs];
    [string_length] alone gives the length word, re-encoded. *)
Theorem text_read_up_to_nul `{Immediates} (Hwf : imm_wf = true)
    (m : list Z) (p : Z) (bs : list Z) :
  0 <= p -> p mod 2 ^ SHIFT = 0 ->
  Rt.load_u64 m p = Some (Z.of_nat (List.length bs)) ->
  firstn (List.length bs) (skipn (Z.to_nat (p + 8)) m) = bs ->
  (In 0 bs \/ (~ In 0 bs /\ nth_error m (Z.to_nat (p + 8) + List.length bs) <> Some 0)) ->
  Rt.str_str m (Z.lor p STR) <> Some bs /\
  Rt.string_length m (Z.lor p STR) = Some (encode (Z.of_nat (List.length bs))) /\
  (forall err fs port fs' r, Rt.rt_write err fs m (Z.lor p STR) port = Some (fs', r) ->
     exists pv path, Rt.vec_nth m port 1 = Some pv /\ Rt.str_str m pv = Some path /\
       fs' path <> Some bs) /\
  (forall f nested out st, Rt.print (S f) m (Z.lor p STR) nested = (out, st) ->
     (out = EmptyString /\ st = Rt.Abort) \/
     exists c, c <> bs /\ out = append Rt.dq (append (Rt.bytes_to_string c) Rt.dq)) /\
  (forall err fd fs fs' w, Rt.rt_open_write err fd fs m (Z.lor p STR) = Some (fs', w) ->
     exists c, c <> bs /\ fs' c = Some [] /\ fs' bs = fs bs) /\
  (forall err fd fs w, Rt.rt_open_read err fd fs m (Z.lor p STR) = Some w ->
     exists c, c <> bs /\ fs c <> None) /\
  (forall q, 0 <= q -> q mod 2 ^ SHIFT = 0 ->
     firstn (List.length bs) (skipn (Z.to_nat (q + 16)) m) = bs ->
     (In 0 bs \/ (~ In 0 bs /\ nth_error m (Z.to_nat (q + 16) + List.length bs) <> Some 0)) ->
     Rt.sym_name m (Z.lor q SYM) <> Some bs).
Proof.
  intros Hp0 Hp Hlen Hw Hc.
  assert (In STR tags) as InS by (unfold tags; simpl; tauto).
  assert (In SYM tags) as InY by (unfold tags; simpl; tauto).
  destruct (boxed_parts Hwf p STR InS Hp) as [E T].
  assert (Rt.str_str m (Z.lor p STR) =
          option_map Rt.to_string_lossy (Rt.cstr_at m (p + 8))) as Estr.
  { unfold Rt.str_str. rewrite T, Z.eqb_refl, E. f_equal. f_equal. lia. }
  assert (Rt.str_str m (Z.lor p STR) <> Some bs) as D.
  { rewrite Estr. apply cstr_decode_differs; [lia|exact Hw|exact Hc]. }
  split; [exact D|]. split; [|split; [|split; [|split; [|split]]]].
  - unfold Rt.string_length. rewrite T, Z.eqb_refl, E.
    replace (p + STR - STR) with p by lia. rewrite Hlen. reflexivity.
  - intros err fs port fs' r Hwr. unfold Rt.rt_write in Hwr.
    destruct (Rt.vec_nth m port 1) as [pv|] eqn:Ev; [|discriminate].
    destruct (Rt.str_str m pv) as [path|] eqn:Ep; [|discriminate].
    destruct (Rt.str_str m (Z.lor p STR)) as [c|] eqn:Ec; [|discriminate].
    destruct (err Rt.WriteFile path); [discriminate|].
    injection Hwr as <- _. exists pv, path. split; [reflexivity|]. split; [exact Ep|].
    unfold Rt.fs_update. destruct (list_eq_dec Z.eq_dec path path); [|contradiction].
    intro Ecb. injection Ecb as ->. apply D. reflexivity.
  - intros f nested out st Hpr. cbn [Rt.print] in Hpr.
    rewrite T, (classify_STR Hwf) in Hpr.
    destruct (Rt.str_str m (Z.lor p STR)) as [c|] eqn:Ec; simpl in Hpr.
    + injection Hpr as <- _. right. exists c. split; [|reflexivity].
      intro Ecb. subst c. apply D. reflexivity.
    + injection Hpr as <- <-. left. split; reflexivity.
  - intros err fd fs fs' w Ho. unfold Rt.rt_open_write in Ho.
    destruct (Rt.str_str m (Z.lor p STR)) as [c|] eqn:Ec; [|discriminate].
    destruct (err Rt.Create c); [discriminate|].
    injection Ho as <- _. exists c.
    assert (c <> bs) as Ncb by (intro Ecb; subst c; apply D; reflexivity).
    split; [exact Ncb|]. unfold Rt.fs_update. split.
    + destruct (list_eq_dec Z.eq_dec c c); [reflexivity|contradiction].
    + destruct (list_eq_dec Z.eq_dec bs c); [congruence|reflexivity].
  - intros err fd fs w Ho. unfold Rt.rt_open_read in Ho.
    destruct (Rt.str_str m (Z.lor p STR)) as [c|] eqn:Ec; [|discriminate].
    destruct (err Rt.OpenRead c); [discriminate|].
    exists c. split; [intro Ecb; subst c; apply D; reflexivity|].
    destruct (fs c); [discriminate|discriminate].
  - intros q Hq0 Hq Hwq Hcq.
    destruct (boxed_parts Hwf q SYM InY Hq) as [Eq Tq].
    unfold Rt.sym_name. rewrite Tq, Z.eqb_refl, Eq.
    replace (q + SYM - SYM + 16) with (q + 16) by lia.
    apply cstr_decode_differs; [lia|exact Hwq|exact Hcq].
Qed.

(** ** [rt_read] *)

Lemma stored_twice (m bs1 bs2 : list Z) (a b : nat) :
  b = (a + List.length bs1)%nat ->
  (b + List.length bs2 <= List.length m)%nat ->
  List.length (stored (stored m a bs1) b bs2) = List.length m /\
  firstn (List.length bs1) (skipn a (stored (stored m a bs1) b bs2)) = bs1 /\
  firstn (List.length bs2) (skipn b (stored (stored m a bs1) b bs2)) = bs2 /\
  (forall i, (i < a \/ b + List.length bs2 <= i)%nat ->
     nth i (stored (stored m a bs1) b bs2) 0 = nth i m 0).
Proof.
  intros -> Hl.
  assert (B1 : (a + List.length bs1 <= List.length m)%nat) by lia.
  assert (L1 : List.length (stored m a bs1) = List.length m) by (apply stored_length; exact B1).
  assert (B2 : (a + List.length bs1 + List.length bs2 <= List.length (stored m a bs1))%nat)
    by (rewrite L1; exact Hl).
  split; [rewrite stored_length by exact B2; exact L1|].
  split; [|split].
  - transitivity (firstn (List.length bs1) (skipn a (stored m a bs1))).
    2: apply window_stored; exact B1.
    apply window_eq.
    + rewrite stored_length by exact B2. reflexivity.
    + intros i Hi. rewrite stored_nth by exact B2.
      destruct (Nat.ltb_spec i (a + List.length bs1)); [reflexivity|lia].
  - apply window_stored. exact B2.
  - intros i Hi. rewrite stored_nth by exact B2.
    rewrite stored_nth by exact B1.
    destruct (Nat.ltb_spec i (a + List.length bs1)),
             (Nat.ltb_spec i a), (Nat.ltb_spec i (a + List.length bs1 + List.length bs2));
      try reflexivity; lia.
Qed.

Lemma rt_read_some `{Immediates} (err : Rt.IOErr) (fs : Rt.FS) (m : list Z) (r12 port : Z)
    (m' : list Z) (r12' v : Z) :
  Rt.rt_read err fs m r12 port = Some (m', r12', v) ->
  exists pv path data,
    Rt.vec_nth m port 1 = Some pv /\ Rt.str_str m pv = Some path /\
    err Rt.ReadFile path = false /\ fs path = Some data /\
    0 <= r12 /\ r12 + 8 + Z.of_nat (List.length data) <= Z.of_nat (List.length m) /\
    m' = stored (stored m (Z.to_nat r12) (Rt.le_bytes 8 (Z.of_nat (List.length data))))
                (Z.to_nat r12 + 8) data /\
    r12' = r12 /\
    v = Z.lor (wrap64 r12) STR.
Proof.
  unfold Rt.rt_read.
  destruct (Rt.vec_nth m port 1) as [pv|] eqn:Ev; [|discriminate].
  destruct (Rt.str_str m pv) as [path|] eqn:Ep; [|discriminate].
  destruct (err Rt.ReadFile path) eqn:Er; [discriminate|].
  destruct (fs path) as [data|] eqn:Ed; [|discriminate].
  destruct (Rt.store_bytes m r12 _) as [m1|] eqn:E1; [|discriminate].
  destruct (Rt.store_bytes m1 (r12 + 8) data) as [m2|] eqn:E2; [|discriminate].
  intro E. injection E as <- <- <-.
  apply store_bytes_some in E1 as (Hp & Hl1 & ->).
  apply store_bytes_some in E2 as (_ & Hl2 & ->).
  rewrite le_bytes_length in Hl1.
  rewrite stored_length in Hl2 by (rewrite le_bytes_length; lia).
  exists pv, path, data. repeat split; try reflexivity; try assumption; try lia.
  f_equal. lia.
Qed.

Lemma rt_read_memory `{Immediates} (fs : Rt.FS) (m : list Z) (r12 port : Z)
    (m' : list Z) (r12' v : Z) (pv : Z) (path data : list Z) :
  0 <= r12 -> r12 + 8 + Z.of_nat (List.length data) <= Z.of_nat (List.length m) ->
  m' = stored (stored m (Z.to_nat r12) (Rt.le_bytes 8 (Z.of_nat (List.length data))))
              (Z.to_nat r12 + 8) data ->
  List.length m' = List.length m /\
  Rt.load_u64 m' r12 = Some (to_u64 (Z.of_nat (List.length data))) /\
  firstn (List.length data) (skipn (Z.to_nat (r12 + 8)) m') = data /\
  (forall i, (Z.to_nat r12 + 8 + List.length data <= i)%nat -> nth i m' 0 = nth i m 0).
Proof.
  intros Hp Hl ->.
  destruct (stored_twice m (Rt.le_bytes 8 (Z.of_nat (List.length data))) data
              (Z.to_nat r12) (Z.to_nat r12 + 8))
    as (L & W1 & W2 & Out); [rewrite le_bytes_length; reflexivity|lia|].
  rewrite le_bytes_length in W1.
  split; [exact L|]. split; [|split].
  - unfold Rt.load_u64. rewrite read_bytes_some by (try rewrite L; simpl; lia).
    rewrite W1. unfold option_map. rewrite le_val_bytes. reflexivity.
  - replace (Z.to_nat (r12 + 8)) with (Z.to_nat r12 + 8)%nat by lia. exact W2.
  - intros i Hi. apply Out. lia.
Qed.

(** [rt_read] (claim C3): after reading a file of [N] bytes it writes [N]
    as the length word at the cursor, copies the bytes right after it and
    returns the old cursor tagged [STR]; but the cursor the caller sees
    after the call is the old one: it does not move at all, let alone by
    the word-aligned size of the length word and the payload, and still
    points at the length word of the string just read. *)
Theorem rt_read_cursor_unmoved `{Immediates} (err : Rt.IOErr) (fs : Rt.FS) (m : list Z)
    (r12 port : Z) (m' : list Z) (r12' v : Z) :
  Rt.rt_read err fs m r12 port = Some (m', r12', v) ->
  exists pv path data,
    Rt.vec_nth m port 1 = Some pv /\ Rt.str_str m pv = Some path /\ fs path = Some data /\
    Rt.load_u64 m' r12 = Some (to_u64 (Z.of_nat (List.length data))) /\
    firstn (List.length data) (skipn (Z.to_nat (r12 + 8)) m') = data /\
    v = Z.lor (wrap64 r12) STR /\
    r12' = r12 /\
    r12' <> r12 + spec_read_advance (Z.of_nat (List.length data)) /\
    Rt.load_u64 m' r12' = Some (to_u64 (Z.of_nat (List.length data))).
Proof.
  intro Hr.
  destruct (rt_read_some err fs m r12 port m' r12' v Hr)
    as (pv & path & data & Ev & Ep & _ & Ed & Hp & Hl & Em & Ec & Evv).
  destruct (rt_read_memory fs m r12 port m' r12' v pv path data Hp Hl Em)
    as (_ & Lw & Wd & _).
  exists pv, path, data. subst r12'. repeat split; try assumption.
  unfold spec_read_advance.
  set (n := Z.of_nat (List.length data)).
  assert (0 <= n) by lia.
  assert (1 <= (8 + n + 7) / 8) by (apply Z.div_le_lower_bound; lia).
  lia.
Qed.

Lemma lossy_ascii (f : nat) (l : list Z) :
  Forall (fun b => 0 <= b < 128) l -> (List.length l <= f)%nat -> Rt.lossy f l = l.
Proof.
  revert l; induction f as [|f IH]; intros l Hl Hf.
  - destruct l; [reflexivity|simpl in Hf; lia].
  - destruct l as [|b r]; [reflexivity|]. inversion Hl; subst. simpl.
    replace (b <? 128) with true by (symmetry; apply Z.ltb_lt; lia).
    rewrite IH by (assumption || (simpl in Hf; lia)). reflexivity.
Qed.

(** Case analysis on the integer comparisons of a boolean goal. *)
Ltac zbool :=
  repeat (match goal with
          | |- context [Z.eqb ?x ?y] => destruct (Z.eqb_spec x y)
          | |- context [Z.leb ?x ?y] => destruct (Z.leb_spec x y)
          | |- context [Z.ltb ?x ?y] => destruct (Z.ltb_spec x y)
          end; cbn [andb orb negb]).

Lemma in_range_spec (lo hi b : Z) : in_range lo hi b = true <-> lo <= b <= hi.
Proof. unfold in_range. rewrite andb_true_iff, !Z.leb_le. tauto. Qed.

Lemma cont_tail (c : Z) : in_range 128 191 c = true -> Rt.cont c = true.
Proof. unfold in_range, Rt.cont. zbool; intros; try reflexivity; try discriminate; lia. Qed.

Lemma utf8_width_lead (b : Z) :
  (194 <= b <= 223 -> Rt.utf8_width b = 2%nat) /\
  (224 <= b <= 239 -> Rt.utf8_width b = 3%nat) /\
  (240 <= b <= 244 -> Rt.utf8_width b = 4%nat).
Proof.
  unfold Rt.utf8_width. zbool; repeat split; intros; try reflexivity; lia.
Qed.

Lemma second_byte3_ok (b c : Z) :
  224 <= b <= 239 -> second_byte3 b c = true -> Rt.second_ok b c = true.
Proof.
  intro Hb. unfold second_byte3, Rt.second_ok, Rt.cont, in_range.
  zbool; intros; try reflexivity; try discriminate; lia.
Qed.

Lemma second_byte4_ok (b c : Z) :
  240 <= b <= 244 -> second_byte4 b c = true -> Rt.second_ok b c = true.
Proof.
  intro Hb. unfold second_byte4, Rt.second_ok, Rt.cont, in_range.
  zbool; intros; try reflexivity; try discriminate; lia.
Qed.

(** Lossy decoding keeps well-formed UTF-8 as it is. *)
Lemma lossy_valid (f : nat) (l : list Z) :
  utf8_valid l = true -> (List.length l <= f)%nat -> Rt.lossy f l = l.
Proof.
  revert l; induction f as [|f IH]; intros l Hv Hf.
  - destruct l; [reflexivity|simpl in Hf; lia].
  - destruct l as [|b r]; [reflexivity|]. simpl in Hf. cbn [utf8_valid] in Hv.
    cbn [Rt.lossy].
    destruct (utf8_width_lead b) as (W2 & W3 & W4).
    destruct (in_range 0 127 b) eqn:A.
    { apply in_range_spec in A.
      replace (b <? 128) with true by (symmetry; apply Z.ltb_lt; lia).
      rewrite IH by (assumption || lia). reflexivity. }
    assert (~ (0 <= b <= 127)) as NA by (rewrite <- in_range_spec; congruence).
    destruct (in_range 194 223 b) eqn:B.
    { apply in_range_spec in B.
      replace (b <? 128) with false by (symmetry; apply Z.ltb_ge; lia).
      rewrite W2 by lia.
      destruct r as [|c1 r1]; [discriminate|]. apply andb_true_iff in Hv as [C V].
      rewrite (cont_tail c1 C). simpl in Hf. rewrite IH by (assumption || lia).
      reflexivity. }
    destruct (in_range 224 239 b) eqn:T.
    { apply in_range_spec in T.
      replace (b <? 128) with false by (symmetry; apply Z.ltb_ge; lia).
      rewrite W3 by lia.
      destruct r as [|c1 [|c2 r2]]; try discriminate.
      apply andb_true_iff in Hv as [Hv V]. apply andb_true_iff in Hv as [C1 C2].
      rewrite (second_byte3_ok b c1 T C1), (cont_tail c2 C2). simpl in Hf.
      rewrite IH by (assumption || lia). reflexivity. }
    destruct (in_range 240 244 b) eqn:F; [|discriminate].
    apply in_range_spec in F.
    replace (b <? 128) with false by (symmetry; apply Z.ltb_ge; lia).
    rewrite W4 by lia.
    destruct r as [|c1 [|c2 [|c3 r3]]]; try discriminate.
    apply andb_true_iff in Hv as [Hv V]. apply andb_true_iff in Hv as [Hv C3].
    apply andb_true_iff in Hv as [C1 C2].
    rewrite (second_byte4_ok b c1 F C1), (cont_tail c2 C2), (cont_tail c3 C3).
    simpl in Hf. rewrite IH by (assumption || lia). reflexivity.
Qed.

(** The string object [rt_read] builds, read back through [str_str]. *)
Lemma str_str_after_read `{Immediates} (Hwf : imm_wf = true) (m' : list Z) (r12 : Z)
    (data : list Z) :
  0 <= r12 -> r12 mod 2 ^ SHIFT = 0 ->
  firstn (List.length data) (skipn (Z.to_nat (r12 + 8)) m') = data ->
  nth_error m' (Z.to_nat (r12 + 8) + List.length data) = Some 0 ->
  ~ In 0 data -> utf8_valid data = true ->
  Rt.str_str m' (Z.lor r12 STR) = Some data.
Proof.
  intros Hp Ha Hw Hn N0 Hd.
  assert (In STR tags) as InS by (unfold tags; simpl; tauto).
  destruct (boxed_parts Hwf r12 STR InS Ha) as [E T].
  unfold Rt.str_str, Rt.cstr_at. rewrite T, Z.eqb_refl, E.
  replace (r12 + STR - STR + 8) with (r12 + 8) by lia.
  replace (0 <=? r12 + 8) with true by (symmetry; apply Z.leb_le; lia).
  rewrite <- (firstn_skipn (List.length data) (skipn (Z.to_nat (r12 + 8)) m')), Hw.
  rewrite take_cstr_app by exact N0.
  assert (nth_error (skipn (List.length data) (skipn (Z.to_nat (r12 + 8)) m')) 0 = Some 0)
    as Hr by (rewrite !nth_error_skipn, <- Hn; f_equal; lia).
  destruct (skipn (List.length data) (skipn (Z.to_nat (r12 + 8)) m')) as [|z rest];
    [discriminate|].
  simpl in Hr. injection Hr as ->. simpl. rewrite app_nil_r.
  unfold Rt.to_string_lossy. rewrite lossy_valid; [reflexivity|exact Hd|lia].
Qed.

(** Read then write (claim C5, as amended): for a file whose [N] bytes
    hold no NUL and are well-formed UTF-8, read by [rt_read] at a cursor
    below [2^63] aligned to the tag field where the byte just past the
    copied payload is already a NUL, [string_length] of the new string is
    [N] re-encoded as a fixnum, and [rt_write] of that string to a
    file-backed port writes exactly the file's bytes: whenever it
    completes, and it completes unless the system refuses the write. *)
Theorem read_write_round_trip_utf8 `{Immediates} (Hwf : imm_wf = true)
    (err : Rt.IOErr) (fs : Rt.FS) (m : list Z) (r12 port : Z) (m' : list Z) (r12' v : Z)
    (pv : Z) (path data : list Z) :
  Rt.rt_read err fs m r12 port = Some (m', r12', v) ->
  Rt.vec_nth m port 1 = Some pv -> Rt.str_str m pv = Some path -> fs path = Some data ->
  ~ In 0 data -> utf8_valid data = true ->
  r12 < 2 ^ 63 -> r12 mod 2 ^ SHIFT = 0 ->
  nth_error m (Z.to_nat (r12 + 8) + List.length data) = Some 0 ->
  Rt.string_length m' v = Some (encode (Z.of_nat (List.length data))) /\
  (forall err2 fs2 port2 fs' r, Rt.rt_write err2 fs2 m' v port2 = Some (fs', r) ->
     exists pv2 path2, Rt.vec_nth m' port2 1 = Some pv2 /\
       Rt.str_str m' pv2 = Some path2 /\ fs' path2 = Some data) /\
  (forall err2 fs2 port2 pv2 path2, Rt.vec_nth m' port2 1 = Some pv2 ->
     Rt.str_str m' pv2 = Some path2 -> err2 Rt.WriteFile path2 = false ->
     Rt.rt_write err2 fs2 m' v port2 = Some (Rt.fs_update fs2 path2 data, NIL)).
Proof.
  intros Hr Hv Hpath Hdata Hnul0 Hutf Hlt Ha Hnul.
  destruct (rt_read_some err fs m r12 port m' r12' v Hr)
    as (pv' & path' & data' & Ev & Ep & _ & Ed & Hp & Hl & Em & Ec & Evv).
  rewrite Hv in Ev. injection Ev as <-. rewrite Hpath in Ep. injection Ep as <-.
  rewrite Hdata in Ed. injection Ed as <-.
  destruct (rt_read_memory fs m r12 port m' r12' v pv path data Hp Hl Em)
    as (L & Lw & Wd & Out).
  rewrite wrap64_id in Evv by lia. subst v.
  assert (In STR tags) as InS by (unfold tags; simpl; tauto).
  destruct (boxed_parts Hwf r12 STR InS Ha) as [E T].
  assert (Rt.str_str m' (Z.lor r12 STR) = Some data) as Es.
  { apply (str_str_after_read Hwf); try assumption.
    assert (Z.to_nat (r12 + 8) + List.length data < List.length m)%nat as Bi
      by (apply nth_error_Some; congruence).
    rewrite (nth_error_nth' m' 0) by lia. f_equal.
    rewrite Out by lia. exact (nth_error_nth _ _ 0 Hnul). }
  split; [|split].
  - unfold Rt.string_length. rewrite T, Z.eqb_refl, E.
    replace (r12 + STR - STR) with r12 by lia. rewrite Lw. simpl option_map. f_equal.
    unfold encode. apply wrap64_congr. pose proof (wf_shift Hwf).
    rewrite !Z.shiftl_mul_pow2 by lia. unfold to_u64.
    set (n := Z.of_nat (List.length data)).
    rewrite (Z.mod_eq n (2 ^ 64)) by lia.
    replace ((n - 2 ^ 64 * (n / 2 ^ 64)) * 2 ^ SHIFT - n * 2 ^ SHIFT)
      with ((- (n / 2 ^ 64) * 2 ^ SHIFT) * 2 ^ 64) by ring.
    apply Z.mod_mul. lia.
  - intros err2 fs2 port2 fs' r Hw. unfold Rt.rt_write in Hw.
    destruct (Rt.vec_nth m' port2 1) as [pv2|] eqn:Ev2; [|discriminate].
    destruct (Rt.str_str m' pv2) as [path2|] eqn:Ep2; [|discriminate].
    rewrite Es in Hw. destruct (err2 Rt.WriteFile path2); [discriminate|].
    injection Hw as <- _.
    exists pv2, path2. split; [reflexivity|]. split; [exact Ep2|].
    unfold Rt.fs_update. destruct (list_eq_dec Z.eq_dec path2 path2); [reflexivity|contradiction].
  - intros err2 fs2 port2 pv2 path2 Ev2 Ep2 Ew. unfold Rt.rt_write.
    rewrite Ev2, Ep2, Es, Ew. reflexivity.
Qed.

(** ** Concrete runs *)

Ltac lit_operand :=
  intros ?s ?m; eexists; split; [reflexivity|]; split; [reflexivity|]; intros ? _; reflexivity.

Ltac lit_keeps_rcx := intros ?s ?m ?m' E; simpl in E; injection E as <-; reflexivity.

Section Concrete.
#[local] Existing Instance sample_imm.

(** Read then write (claim C5): the file [65; 0; 66] of three bytes is
    read into a string whose [string_length] is [encode 3], but [rt_write]
    of that string writes the one byte [65]; the one-byte file [255], not
    UTF-8, is read into a string whose [string_length] is [encode 1], but
    [rt_write] writes the three bytes of U+FFFD in its place. *)
Theorem read_write_round_trip_counterexample :
  match Rt.rt_read no_err (sample_fs [65; 0; 66]) sample_heap 64 (Z.lor 0 VEC) with
  | Some (m', _, v) =>
      Rt.string_length m' v = Some (encode 3) /\
      match Rt.rt_write no_err (sample_fs [65; 0; 66]) m' v (Z.lor 0 VEC) with
      | Some (fs', _) => fs' [97] = Some [65]
      | None => False
      end
  | None => False
  end /\
  match Rt.rt_read no_err (sample_fs [255]) sample_heap 64 (Z.lor 0 VEC) with
  | Some (m', _, v) =>
      Rt.string_length m' v = Some (encode 1) /\
      match Rt.rt_write no_err (sample_fs [255]) m' v (Z.lor 0 VEC) with
      | Some (fs', _) => fs' [97] = Some [239; 191; 189]
      | None => False
      end
  | None => False
  end.
Proof. vm_compute. repeat split; reflexivity. Qed.

Lemma zerop_compares_unmasked_with_NUM_witness :
  imm_wf = true /\
  exists m', exec (Prim.compare (Reg RAX) (Const NUM) "sete") sample_machine = Some m' /\
    rax m' = bool_word (rax sample_machine =? NUM).
Proof.
  split; [vm_compute; reflexivity|].
  apply (proj2 (proj2 (@zerop_compares_unmasked_with_NUM sample_imm Z Z lit_eval 0 0))).
  vm_compute. reflexivity.
Defined.

Lemma plus_minus_mul_fixnums_witness :
  (exists m', exec (fst (Prim.plus lit_si lit_eval 0 (encode 3) (encode 4))) sample_machine
              = Some m' /\ rax m' = encode (3 + 4)) /\
  (exists m', exec (fst (Prim.minus lit_si lit_eval 0 (encode 3) (encode 4))) sample_machine
              = Some m' /\ rax m' = encode (3 - 4)) /\
  (exists m', exec (fst (Prim.mul lit_si lit_eval 0 (encode 3) (encode 4))) sample_machine
              = Some m' /\ rax m' = encode (3 * 4)).
Proof.
  apply (@plus_minus_mul_fixnums sample_imm Z Z lit_si lit_eval (eq_refl true)).
  - intros s e. reflexivity.
  - lit_operand.
  - lit_operand.
Defined.

Lemma quotient_remainder_truncating_witness :
  (exists m', exec (fst (Prim.quotient lit_eval 0 (encode (-7)) (encode 2))) sample_machine
              = Some m' /\ rax m' = encode (-3)) /\
  (exists m', exec (fst (Prim.remainder lit_eval 0 (encode (-7)) (encode 2))) sample_machine
              = Some m' /\ rax m' = encode (-1)) /\
  (exists m', exec (fst (Prim.quotient lit_eval 0 (encode 7) (encode 2))) sample_machine
              = Some m' /\ rax m' = encode 3) /\
  (exists m', exec (fst (Prim.remainder lit_eval 0 (encode 7) (encode 2))) sample_machine
              = Some m' /\ rax m' = encode 1).
Proof.
  pose proof (@quotient_remainder_truncating sample_imm Z Z lit_si lit_eval eq_refl 0
                (encode (-7)) (encode 2) (-7) 2
                ltac:(unfold fixnum_range; simpl; lia) ltac:(unfold fixnum_range; simpl; lia)
                ltac:(lia) ltac:(lit_operand) ltac:(lit_operand) ltac:(lit_keeps_rcx)
                sample_machine) as [Qn Rn].
  pose proof (@quotient_remainder_truncating sample_imm Z Z lit_si lit_eval eq_refl 0
                (encode 7) (encode 2) 7 2
                ltac:(unfold fixnum_range; simpl; lia) ltac:(unfold fixnum_range; simpl; lia)
                ltac:(lia) ltac:(lit_operand) ltac:(lit_operand) ltac:(lit_keeps_rcx)
                sample_machine) as [Qp Rp].
  split; [exact Qn|]. split; [exact Rn|]. split; [exact Qp|exact Rp].
Defined.

Lemma comparisons_tagged_booleans_witness :
  (exists m', exec (fst (Prim.lt lit_si lit_eval 0 (encode 1) (encode 2))) sample_machine
              = Some m' /\ rax m' = TRUE) /\
  (exists m', exec (fst (Prim.gte lit_si lit_eval 0 (encode 2) (encode 2))) sample_machine
              = Some m' /\ rax m' = TRUE) /\
  (exists m', exec (fst (Prim.eq lit_si lit_eval 0 (encode 1) (encode 2))) sample_machine
              = Some m' /\ rax m' = FALSE).
Proof.
  pose proof (@comparisons_tagged_booleans sample_imm Z Z lit_si lit_eval eq_refl
                ltac:(intros ? ?; reflexivity) 0 (encode 1) (encode 2) (encode 1) (encode 2)
                ltac:(lit_operand) ltac:(lit_operand) sample_machine)
    as (Eq12 & Lt12 & _).
  pose proof (@comparisons_tagged_booleans sample_imm Z Z lit_si lit_eval eq_refl
                ltac:(intros ? ?; reflexivity) 0 (encode 2) (encode 2) (encode 2) (encode 2)
                ltac:(lit_operand) ltac:(lit_operand) sample_machine)
    as (_ & _ & _ & _ & Gte22).
  split; [exact Lt12|]. split; [exact Gte22|exact Eq12].
Defined.

Lemma print_examples_witness :
  Rt.print 2 print_heap (Z.lor 0 PAIR) false = ("(1 . 2)"%string, Rt.Done) /\
  Rt.print 4 print_heap (Z.lor 16 PAIR) false = ("(1 2 3)"%string, Rt.Done) /\
  Rt.print 1 print_heap (Z.lor 64 VEC) false = ("[]"%string, Rt.Done) /\
  Rt.print 1 print_heap (Z.lor 72 STR) false = (append Rt.dq (append "hi" Rt.dq), Rt.Done) /\
  Rt.print 1 print_heap (encode_char 10) false = ("#\newline"%string, Rt.Done) /\
  @Rt.print sample_imm_wide 1 print_heap 15 false = (EmptyString, Rt.Abort).
Proof.
  destruct (@print_examples sample_imm eq_refl) as (P12 & P123 & PV & PS & PC & _).
  destruct (@print_examples sample_imm_wide eq_refl) as (_ & _ & _ & _ & _ & PU).
  split; [apply P12; [lia | reflexivity | vm_compute; reflexivity | vm_compute; reflexivity]|].
  split; [apply (P123 4%nat print_heap 16 32 48); [lia | reflexivity | reflexivity | reflexivity
                      | vm_compute; reflexivity | vm_compute; reflexivity
                      | vm_compute; reflexivity | vm_compute; reflexivity
                      | vm_compute; reflexivity | vm_compute; reflexivity]|].
  split; [apply PV; [lia | reflexivity | vm_compute; reflexivity]|].
  split; [apply PS; [lia | lia | reflexivity | vm_compute; reflexivity
                    | vm_compute; reflexivity]|].
  split; [apply PC; lia|].
  apply (PU 0%nat). vm_compute. intuition discriminate.
Defined.

Lemma car_cdr_assert_and_read_witness :
  Rt.car print_heap (encode 5) = None /\ Rt.cdr print_heap (encode 5) = None /\
  (Rt.car print_heap (Z.lor 16 PAIR) = Rt.load64 print_heap 16 /\
   Rt.cdr print_heap (Z.lor 16 PAIR) = Rt.load64 print_heap 24) /\
  match Rt.cons_at (repeat 0 32) 8 40 NIL with
  | Some m' => Rt.car m' (Z.lor 8 PAIR) = Some 40 /\ Rt.cdr m' (Z.lor 8 PAIR) = Some NIL
  | None => False
  end.
Proof.
  destruct (@car_cdr_assert_and_read sample_imm eq_refl) as (Bad & Good & Cons).
  destruct (Bad print_heap (encode 5)) as [B1 B2]; [vm_compute; discriminate|].
  split; [exact B1|]. split; [exact B2|].
  split.
  { assert (T : Rt.tag (Z.lor 16 PAIR) = PAIR) by (vm_compute; reflexivity).
    exact (Good print_heap (Z.lor 16 PAIR) T). }
  destruct (Rt.cons_at (repeat 0 32) 8 40 NIL) as [m'|] eqn:E; [|vm_compute in E; discriminate].
  apply (Cons (repeat 0 32) m' 8 40 NIL); [reflexivity | lia | simpl; lia | exact E].
Defined.

Lemma symbol_eq_identity_and_tag_witness :
  Rt.symbol_eq (Z.lor 8 SYM) (Z.lor 8 SYM) = TRUE /\ Rt.symbol_eq (encode 2) (encode 2) = FALSE.
Proof.
  destruct (@symbol_eq_identity_and_tag sample_imm eq_refl (Z.lor 8 SYM) (Z.lor 8 SYM))
    as ([_ T] & _ & _).
  destruct (@symbol_eq_identity_and_tag sample_imm eq_refl (encode 2) (encode 2))
    as (_ & _ & F).
  split; [apply T; split; reflexivity | apply F; vm_compute; discriminate].
Defined.

Lemma text_read_up_to_nul_witness :
  Rt.str_str nul_heap (Z.lor 0 STR) <> Some [65; 0; 66] /\
  Rt.string_length nul_heap (Z.lor 0 STR) = Some (encode 3).
Proof.
  destruct (@text_read_up_to_nul sample_imm eq_refl nul_heap 0 [65; 0; 66])
    as (D & L & _); [lia | reflexivity | vm_compute; reflexivity | vm_compute; reflexivity
                     | left; simpl; tauto |].
  split; [exact D | exact L].
Defined.

Lemma rt_read_cursor_unmoved_witness :
  match Rt.rt_read no_err (sample_fs [104; 101; 108; 108; 111]) sample_heap 64 (Z.lor 0 VEC)
  with
  | Some (m', r12', _) =>
      r12' = 64 /\ r12' <> 64 + spec_read_advance 5 /\ Rt.load_u64 m' r12' = Some 5
  | None => False
  end.
Proof.
  destruct (Rt.rt_read no_err (sample_fs [104; 101; 108; 108; 111]) sample_heap 64
              (Z.lor 0 VEC))
    as [[[m' r'] v]|] eqn:E; [|vm_compute in E; discriminate].
  destruct (@rt_read_cursor_unmoved sample_imm _ _ _ _ _ _ _ _ E)
    as (pv & path & data & Ev & Ep & Ed & _ & _ & _ & Er & Ne & Lw).
  vm_compute in Ev. injection Ev as <-. vm_compute in Ep. injection Ep as <-.
  vm_compute in Ed. injection Ed as <-.
  split; [exact Er|]. split; [exact Ne|]. exact Lw.
Defined.

Lemma read_write_round_trip_utf8_witness :
  match Rt.rt_read no_err (sample_fs [104; 195; 169]) sample_heap 64 (Z.lor 0 VEC) with
  | Some (m', _, v) =>
      Rt.string_length m' v = Some (encode 3) /\
      Rt.rt_write no_err (sample_fs [104; 195; 169]) m' v (Z.lor 0 VEC) =
        Some (Rt.fs_update (sample_fs [104; 195; 169]) [97] [104; 195; 169], NIL)
  | None => False
  end.
Proof.
  destruct (Rt.rt_read no_err (sample_fs [104; 195; 169]) sample_heap 64 (Z.lor 0 VEC))
    as [[[m' r'] v]|] eqn:E; [|vm_compute in E; discriminate].
  destruct (@read_write_round_trip_utf8 sample_imm eq_refl _ _ _ _ _ _ _ _
              37 [97] [104; 195; 169] E)
    as (L & _ & W); [vm_compute; reflexivity | vm_compute; reflexivity | reflexivity
                     | simpl; lia | reflexivity | lia | reflexivity
                     | vm_compute; reflexivity |].
  split; [exact L|].
  apply (W no_err (sample_fs [104; 195; 169]) (Z.lor 0 VEC) 37 [97]).
  - vm_compute in E. injection E as <- _ _. vm_compute. reflexivity.
  - vm_compute in E. injection E as <- _ _. vm_compute. reflexivity.
  - reflexivity.
Defined.

End Concrete.

(** * Further properties of the primitives and the runtime *)

(** ** Unary primitives *)

Section UnaryRun.
Context `{Immediates}.
Hypothesis Hwf : imm_wf = true.

(** The operand's code, then a [sete] comparison of the accumulator. *)
Lemma test_run (c : ASM) (T v : Z) (m m1 : Machine) :
  exec c m = Some m1 -> rax m1 = v ->
  runs_to (c ++ Prim.compare (Reg RAX) (Const T) "sete") m (bool_word (v =? T)).
Proof.
  intros E R. unfold runs_to. rewrite exec_app, E.
  destruct (compare_run Hwf (Reg RAX) (Const T) "sete" m1 (v =? T)) as [m' [E' [R' _]]].
  - simpl. rewrite R. reflexivity.
  - exists m'. split; assumption.
Qed.

(** The same after masking the accumulator to its tag field. *)
Lemma mask_test_run (c : ASM) (T v : Z) (m m1 : Machine) :
  exec c m = Some m1 -> rax m1 = v ->
  runs_to (c ++ Prim.mask ++ Prim.compare (Reg RAX) (Const T) "sete") m
    (bool_word (Rt.tag v =? T)).
Proof.
  intros E R. rewrite app_assoc.
  apply (test_run _ T _ m (set m1 RAX (Z.land (rax m1) MASK))).
  - rewrite exec_app, E. reflexivity.
  - cbn [rax set]. rewrite R. reflexivity.
Qed.

Variables (AST State : Type) (si : State -> Z).
Variable eval : State -> AST -> ASM * State.

Lemma type_tests_run (s : State) (e : AST) (v : Z) (m : Machine) :
  Prim.operand_value si eval e v ->
  runs_to (fst (Prim.fixnump eval s e)) m (bool_word (Rt.tag v =? NUM)) /\
  runs_to (fst (Prim.booleanp eval s e)) m (bool_word (Rt.tag v =? BOOL)) /\
  runs_to (fst (Prim.charp eval s e)) m (bool_word (Rt.tag v =? CHAR)).
Proof.
  intro He. specialize (He s m).
  unfold Prim.fixnump, Prim.booleanp, Prim.charp.
  destruct (eval s e) as [c s1]. destruct He as [m1 [E1 [R1 _]]]. simpl fst in *.
  split; [|split]; exact (mask_test_run _ _ _ m m1 E1 R1).
Qed.

Lemma word_tests_run (s : State) (e : AST) (v : Z) (m : Machine) :
  Prim.operand_value si eval e v ->
  runs_to (fst (Prim.nullp eval s e)) m (bool_word (v =? NIL)) /\
  runs_to (fst (Prim.zerop eval s e)) m (bool_word (v =? NUM)) /\
  runs_to (fst (Prim.not eval s e)) m (bool_word (v =? FALSE)).
Proof.
  intro He. specialize (He s m).
  unfold Prim.nullp, Prim.zerop, Prim.not.
  destruct (eval s e) as [c s1]. destruct He as [m1 [E1 [R1 _]]]. simpl fst in *.
  split; [|split]; exact (test_run _ _ _ m m1 E1 R1).
Qed.

End UnaryRun.

Section TagDistinct.
Context `{Immediates}.
Hypothesis Hwf : imm_wf = true.

Ltac distinct_tags :=
  let N := fresh "N" in
  pose proof (wf_nodup Hwf) as N; unfold tags in N;
  repeat match goal with N : NoDup (_ :: _) |- _ => inversion N; clear N end;
  simpl in *.

Lemma tag_eqb_table :
  (NUM =? BOOL) = false /\ (NUM =? CHAR) = false /\ (BOOL =? NUM) = false /\
  (BOOL =? CHAR) = false /\ (CHAR =? NUM) = false /\ (CHAR =? BOOL) = false.
Proof.
  distinct_tags. repeat split; apply Z.eqb_neq; intuition congruence.
Qed.

Lemma boxed_not_immediate (t : Z) : In t [PAIR; NIL; STR; SYM; VEC] ->
  (t =? NUM) = false /\ (t =? BOOL) = false /\ (t =? CHAR) = false.
Proof.
  intro Ht. distinct_tags.
  repeat split; apply Z.eqb_neq; intro E; subst; intuition congruence.
Qed.

Lemma classify_BOOL : Rt.classify BOOL = Some Rt.KBool.
Proof.
  distinct_tags. unfold Rt.classify.
  repeat match goal with |- context [?a =? ?b] => destruct (Z.eqb_spec a b) end;
  solve [reflexivity | exfalso; intuition congruence].
Qed.

Lemma classify_NIL : Rt.classify NIL = Some Rt.KNil.
Proof.
  distinct_tags. unfold Rt.classify.
  repeat match goal with |- context [?a =? ?b] => destruct (Z.eqb_spec a b) end;
  solve [reflexivity | exfalso; intuition congruence].
Qed.

Lemma classify_SYM : Rt.classify SYM = Some Rt.KSym.
Proof.
  distinct_tags. unfold Rt.classify.
  repeat match goal with |- context [?a =? ?b] => destruct (Z.eqb_spec a b) end;
  solve [reflexivity | exfalso; intuition congruence].
Qed.

Lemma tag_bool_word (b : bool) : Rt.tag (bool_word b) = BOOL.
Proof.
  assert (In BOOL tags) as InB by (unfold tags; simpl; tauto).
  unfold bool_word, TRUE, FALSE.
  destruct b; apply (boxed_parts Hwf); [exact InB|apply shiftl_aligned; exact Hwf
                                       |exact InB|apply shiftl_aligned; exact Hwf].
Qed.

End TagDistinct.

(** [inc] and [dec]: on an operand that evaluates to the fixnum [a] the
    code leaves the fixnum [a + 1], resp. [a - 1], wrapping around the
    fixnum range as the 64-bit [add] and [sub] do. *)
Theorem inc_dec_fixnums `{Immediates} (Hwf : imm_wf = true) (AST State : Type)
    (si : State -> Z) (eval : State -> AST -> ASM * State) (s : State) (x : AST) (a : Z)
    (Hx : Prim.operand_value si eval x (encode a)) (m : Machine) :
  runs_to (fst (Prim.inc eval s x)) m (encode (a + 1)) /\
  runs_to (fst (Prim.dec eval s x)) m (encode (a - 1)).
Proof.
  specialize (Hx s m). unfold Prim.inc, Prim.dec, runs_to.
  destruct (eval s x) as [c s1]. destruct Hx as [m1 [E1 [R1 _]]]. simpl fst in *.
  split; eexists; (split; [rewrite exec_app, E1; reflexivity|]); cbn [rax set get opval];
    rewrite R1.
  - rewrite (encode_add Hwf 1 a), Z.add_comm. reflexivity.
  - apply (encode_sub Hwf).
Qed.

(** [fixnump], [booleanp], [charp]: the code masks the operand's word to
    its tag field and compares the tag alone, leaving the tagged boolean of
    [tag v = NUM], [tag v = BOOL], resp. [tag v = CHAR]. *)
Theorem type_predicates_test_tag `{Immediates} (Hwf : imm_wf = true) (AST State : Type)
    (si : State -> Z) (eval : State -> AST -> ASM * State) (s : State) (e : AST) (v : Z)
    (He : Prim.operand_value si eval e v) (m : Machine) :
  runs_to (fst (Prim.fixnump eval s e)) m (bool_word (Rt.tag v =? NUM)) /\
  runs_to (fst (Prim.booleanp eval s e)) m (bool_word (Rt.tag v =? BOOL)) /\
  runs_to (fst (Prim.charp eval s e)) m (bool_word (Rt.tag v =? CHAR)).
Proof. exact (type_tests_run Hwf AST State si eval s e v m He). Qed.

(** The three type predicates on values of each kind: a fixnum answers
    [#t] to [fixnum?] only, a character (any byte) to [char?] only, either
    boolean to [boolean?] only, and a pair, the empty list, a string, a
    symbol or a vector (a tagged aligned address) to none of them. *)
Theorem type_predicates_by_kind `{Immediates} (Hwf : imm_wf = true) (AST State : Type)
    (si : State -> Z) (eval : State -> AST -> ASM * State) (s : State) (e : AST)
    (m : Machine) :
  (forall n, Prim.operand_value si eval e (encode n) ->
     runs_to (fst (Prim.fixnump eval s e)) m TRUE /\
     runs_to (fst (Prim.booleanp eval s e)) m FALSE /\
     runs_to (fst (Prim.charp eval s e)) m FALSE) /\
  (forall c, 0 <= c < 256 -> Prim.operand_value si eval e (encode_char c) ->
     runs_to (fst (Prim.fixnump eval s e)) m FALSE /\
     runs_to (fst (Prim.booleanp eval s e)) m FALSE /\
     runs_to (fst (Prim.charp eval s e)) m TRUE) /\
  (forall b, Prim.operand_value si eval e (bool_word b) ->
     runs_to (fst (Prim.fixnump eval s e)) m FALSE /\
     runs_to (fst (Prim.booleanp eval s e)) m TRUE /\
     runs_to (fst (Prim.charp eval s e)) m FALSE) /\
  (forall p t, p mod 2 ^ SHIFT = 0 -> In t [PAIR; NIL; STR; SYM; VEC] ->
     Prim.operand_value si eval e (Z.lor p t) ->
     runs_to (fst (Prim.fixnump eval s e)) m FALSE /\
     runs_to (fst (Prim.booleanp eval s e)) m FALSE /\
     runs_to (fst (Prim.charp eval s e)) m FALSE).
Proof.
  destruct (tag_eqb_table Hwf) as (NB & NC & BN & BC & CN & CB).
  split; [|split; [|split]].
  - intros n He. destruct (type_tests_run Hwf AST State si eval s e _ m He) as (F & B & C).
    rewrite (tag_encode Hwf) in F, B, C. rewrite Z.eqb_refl in F. rewrite NB in B.
    rewrite NC in C. auto.
  - intros c Hc He. destruct (type_tests_run Hwf AST State si eval s e _ m He) as (F & B & C).
    rewrite (proj1 (encode_char_parts Hwf c Hc)) in F, B, C.
    rewrite CN in F. rewrite CB in B. rewrite Z.eqb_refl in C. auto.
  - intros b He. destruct (type_tests_run Hwf AST State si eval s e _ m He) as (F & B & C).
    rewrite (tag_bool_word Hwf) in F, B, C.
    rewrite BN in F. rewrite Z.eqb_refl in B. rewrite BC in C. auto.
  - intros p t Hp Ht He. destruct (type_tests_run Hwf AST State si eval s e _ m He) as (F & B & C).
    assert (In t tags) as Ht' by (unfold tags; simpl in *; tauto).
    rewrite (proj2 (boxed_parts Hwf p t Ht' Hp)) in F, B, C.
    destruct (boxed_not_immediate Hwf t Ht) as (TN & TB & TC).
    rewrite TN in F. rewrite TB in B. rewrite TC in C. auto.
Qed.

(** [nullp] and [not] compare the whole word, without masking: [null?]
    answers [#t] exactly for the word [NIL] and [not] exactly for the word
    [FALSE]; every other word, the fixnum 0 and the empty list included,
    counts as true for [not]. *)
Theorem nullp_not_whole_word `{Immediates} (Hwf : imm_wf = true) (AST State : Type)
    (si : State -> Z) (eval : State -> AST -> ASM * State) (s : State) (e : AST) (v : Z)
    (He : Prim.operand_value si eval e v) (m : Machine) :
  runs_to (fst (Prim.nullp eval s e)) m (bool_word (v =? NIL)) /\
  runs_to (fst (Prim.not eval s e)) m (bool_word (v =? FALSE)) /\
  (v <> FALSE -> runs_to (fst (Prim.not eval s e)) m FALSE).
Proof.
  destruct (word_tests_run Hwf AST State si eval s e v m He) as (N & _ & T).
  split; [exact N|]. split; [exact T|].
  intro Hv. rewrite (proj2 (Z.eqb_neq v FALSE) Hv) in T. exact T.
Qed.

(** [zerop] on fixnums: [zero?] of a fixnum in the fixnum range is [#t]
    exactly for 0, and [zero?] of any word whose tag is not [NUM] is [#f]. *)
Theorem zerop_on_fixnums `{Immediates} (Hwf : imm_wf = true) (AST State : Type)
    (si : State -> Z) (eval : State -> AST -> ASM * State) (s : State) (e : AST)
    (m : Machine) :
  (forall a, fixnum_range a -> Prim.operand_value si eval e (encode a) ->
     runs_to (fst (Prim.zerop eval s e)) m (bool_word (a =? 0))) /\
  (forall v, Rt.tag v <> NUM -> Prim.operand_value si eval e v ->
     runs_to (fst (Prim.zerop eval s e)) m FALSE).
Proof.
  pose proof (wf_num Hwf) as HN. pose proof (pow_shift Hwf) as Hp.
  split.
  - intros a Ha He. destruct (word_tests_run Hwf AST State si eval s e _ m He) as (_ & Z0 & _).
    rewrite (encode_in_range Hwf a Ha), HN in Z0.
    replace (a * 2 ^ SHIFT =? 0) with (a =? 0) in Z0; [exact Z0|].
    destruct (Z.eqb_spec a 0), (Z.eqb_spec (a * 2 ^ SHIFT) 0); try reflexivity; nia.
  - intros v Hv He. destruct (word_tests_run Hwf AST State si eval s e _ m He) as (_ & Z0 & _).
    replace (v =? NUM) with false in Z0; [exact Z0|].
    symmetry. apply Z.eqb_neq. intro E. apply Hv. subst v.
    rewrite (tag_mod Hwf), HN. reflexivity.
Qed.

(** ** Binary primitives *)

Lemma compare_prims_run `{Immediates} (AST State : Type) (si : State -> Z)
    (eval : State -> AST -> ASM * State) (Hwf : imm_wf = true)
    (Hsi : Prim.keeps_si si eval) (s : State) (x y : AST) (va vb : Z)
    (Hx : Prim.operand_value si eval x va)
    (Hy : Prim.operand_value si eval y vb) (m : Machine) :
  runs_to (fst (Prim.eq si eval s x y)) m (bool_word (va =? vb)) /\
  runs_to (fst (Prim.lt si eval s x y)) m (bool_word (va <? vb)) /\
  runs_to (fst (Prim.gt si eval s x y)) m (bool_word (vb <? va)) /\
  runs_to (fst (Prim.lte si eval s x y)) m (bool_word (va <=? vb)) /\
  runs_to (fst (Prim.gte si eval s x y)) m (bool_word (vb <=? va)).
Proof.
  destruct (binop_run _ _ si eval s x y va vb Hsi Hx Hy m) as [m2 [E2 [R2 [S2 _]]]].
  destruct (cmp_code _ _ si eval s x y) as [Ceq [Clt [Cgt [Cle Cge]]]].
  set (sl := si (snd (Prim.binop si eval s x y))) in *.
  assert (forall cc bit, cond cc (va, vb) = Some bit ->
            runs_to (fst (Prim.binop si eval s x y) ++
                     Prim.compare (Stack sl) (Reg RAX) cc) m (bool_word bit)) as Run.
  { intros cc bit Hc. unfold runs_to. rewrite exec_app, E2.
    destruct (compare_run Hwf (Stack sl) (Reg RAX) cc m2 bit) as [m' [E' [R' _]]].
    - simpl. rewrite S2, R2. exact Hc.
    - exists m'. split; assumption. }
  rewrite Ceq, Clt, Cgt, Cle, Cge.
  repeat split; apply Run; reflexivity.
Qed.

Lemma scaled_cmp (a b k : Z) : 0 < k ->
  (a * k =? b * k) = (a =? b) /\ (a * k <? b * k) = (a <? b) /\
  (a * k <=? b * k) = (a <=? b).
Proof.
  intro Hk. split; [|split].
  - destruct (Z.eqb_spec a b), (Z.eqb_spec (a * k) (b * k)); try reflexivity; nia.
  - destruct (Z.ltb_spec a b), (Z.ltb_spec (a * k) (b * k)); try reflexivity; nia.
  - destruct (Z.leb_spec a b), (Z.leb_spec (a * k) (b * k)); try reflexivity; nia.
Qed.

(** [eq], [lt], [gt], [lte], [gte] on fixnums: for operands that evaluate
    to the fixnums [a] and [b] of the fixnum range, the comparison of the
    encoded words agrees with the comparison of the integers: [=], [<],
    [>], [<=], [>=] of [a] and [b], first operand on the left. *)
Theorem fixnum_comparisons_integer_order `{Immediates} (Hwf : imm_wf = true)
    (AST State : Type) (si : State -> Z) (eval : State -> AST -> ASM * State)
    (Hsi : Prim.keeps_si si eval) (s : State) (x y : AST) (a b : Z)
    (Ha : fixnum_range a) (Hb : fixnum_range b)
    (Hx : Prim.operand_value si eval x (encode a))
    (Hy : Prim.operand_value si eval y (encode b)) (m : Machine) :
  runs_to (fst (Prim.eq si eval s x y)) m (bool_word (a =? b)) /\
  runs_to (fst (Prim.lt si eval s x y)) m (bool_word (a <? b)) /\
  runs_to (fst (Prim.gt si eval s x y)) m (bool_word (b <? a)) /\
  runs_to (fst (Prim.lte si eval s x y)) m (bool_word (a <=? b)) /\
  runs_to (fst (Prim.gte si eval s x y)) m (bool_word (b <=? a)).
Proof.
  pose proof (pow_shift Hwf) as Hp.
  destruct (compare_prims_run AST State si eval Hwf Hsi s x y _ _ Hx Hy m)
    as (Eq & Lt & Gt & Le & Ge).
  rewrite (encode_in_range Hwf a Ha), (encode_in_range Hwf b Hb) in *.
  destruct (scaled_cmp a b (2 ^ SHIFT)) as (C1 & C2 & C3); [lia|].
  destruct (scaled_cmp b a (2 ^ SHIFT)) as (_ & C5 & C6); [lia|].
  rewrite C1 in Eq. rewrite C2 in Lt. rewrite C5 in Gt. rewrite C3 in Le. rewrite C6 in Ge.
  repeat split; assumption.
Qed.

Lemma div_small_divisor_none `{Immediates} (AST State : Type) (si : State -> Z)
    (eval : State -> AST -> ASM * State) (Hwf : imm_wf = true)
    (s : State) (x y : AST) (va vb : Z)
    (Hx : Prim.operand_value si eval x va)
    (Hy : Prim.operand_value si eval y vb)
    (Hrcx : Prim.keeps_rcx eval x) (Hz : 0 <= vb < 2 ^ SHIFT) (m : Machine) :
  exec (fst (Prim.div eval s x y)) m = None.
Proof.
  rewrite div_code.
  destruct (Hy s m) as [m1 [E1 [R1 _]]].
  rewrite exec_app, E1. cbn [app exec step get].
  set (m1' := set (set m1 RAX (Z.shiftr (rax m1) SHIFT)) RCX
                  (rax (set m1 RAX (Z.shiftr (rax m1) SHIFT)))).
  change (step_raw MovRcxRax (set m1 RAX (Z.shiftr (rax m1) SHIFT))) with (Some m1').
  destruct (Hx (snd (eval s y)) m1') as [m2 [E2 [R2 _]]].
  pose proof (Hrcx _ _ _ E2) as C2.
  assert (rcx m1' = 0) as C1.
  { unfold m1'. simpl. rewrite R1. pose proof (wf_shift Hwf).
    rewrite Z.shiftr_div_pow2 by lia. apply Z.div_small. exact Hz. }
  rewrite exec_app, E2. cbn [exec step get step_raw set rax rcx rdx].
  rewrite C2, C1. reflexivity.
Qed.

(** [quotient] and [remainder] by zero: when the divisor's word is below
    [2^SHIFT] (the fixnum 0, but also [#f] and the character NUL, whose
    payload is 0) and the dividend's code leaves [rcx] alone (the divisor
    is kept there while the dividend is evaluated; a dividend that is
    itself a [quotient] or [remainder] overwrites it), the divisor register
    holds 0 at the [idiv] and the code faults instead of completing,
    whatever the dividend's value. *)
Theorem division_by_zero_faults `{Immediates} (Hwf : imm_wf = true) (AST State : Type)
    (si : State -> Z) (eval : State -> AST -> ASM * State)
    (s : State) (x y : AST) (va vb : Z)
    (Hx : Prim.operand_value si eval x va)
    (Hy : Prim.operand_value si eval y vb)
    (Hrcx : Prim.keeps_rcx eval x) (Hz : 0 <= vb < 2 ^ SHIFT) (m : Machine) :
  exec (fst (Prim.quotient eval s x y)) m = None /\
  exec (fst (Prim.remainder eval s x y)) m = None.
Proof.
  destruct (quotient_code _ _ eval s x y) as [Q R]. rewrite Q, R, !exec_app.
  rewrite (div_small_divisor_none AST State si eval Hwf s x y va vb Hx Hy Hrcx Hz m).
  split; reflexivity.
Qed.

(** ** The printer on lists, vectors and immediates *)

Lemma str_app_assoc (a b c : string) : append (append a b) c = append a (append b c).
Proof. induction a as [|ch a IH]; simpl; [reflexivity|]. rewrite IH. reflexivity. Qed.

Lemma str_app_nil_r (a : string) : append a EmptyString = a.
Proof. induction a as [|ch a IH]; simpl; [reflexivity|]. rewrite IH. reflexivity. Qed.

Lemma then_status (p q : Rt.Out) :
  snd (Rt.then_ p q) = match snd p with Rt.Done => snd q | st => st end.
Proof. destruct p as [s [| |]], q; reflexivity. Qed.

Section PrintMore.
Context `{Immediates}.
Hypothesis Hwf : imm_wf = true.

Lemma pair_cell (m : list Z) (q a d : Z) :
  q mod 2 ^ SHIFT = 0 -> Rt.load64 m q = Some a -> Rt.load64 m (q + 8) = Some d ->
  Rt.tag (Z.lor q PAIR) = PAIR /\
  Rt.car m (Z.lor q PAIR) = Some a /\ Rt.cdr m (Z.lor q PAIR) = Some d.
Proof.
  intros Hq Ha Hd.
  destruct (boxed_parts Hwf q PAIR pair_in_tags Hq) as [E T].
  unfold Rt.car, Rt.cdr. rewrite T, Z.eqb_refl, E.
  replace (q + PAIR - PAIR) with q by lia. auto.
Qed.

Lemma pair_not_nil (q : Z) : q mod 2 ^ SHIFT = 0 -> (Z.lor q PAIR =? NIL) = false.
Proof.
  intro Hq. apply Z.eqb_neq. intro E.
  destruct (tags_neq Hwf) as (_ & _ & PN). apply PN.
  rewrite <- (proj2 (boxed_parts Hwf q PAIR pair_in_tags Hq)), E.
  apply (tag_of_tag Hwf). unfold tags; simpl; tauto.
Qed.

Lemma encode_not_nil (n : Z) : (encode n =? NIL) = false.
Proof.
  apply Z.eqb_neq. intro E. destruct (tags_neq Hwf) as (NN & _ & _). apply NN.
  rewrite <- (tag_encode Hwf n), E. apply (tag_of_tag Hwf). unfold tags; simpl; tauto.
Qed.

Lemma encode_not_pair (n : Z) : (Rt.tag (encode n) =? PAIR) = false.
Proof.
  rewrite (tag_encode Hwf). apply Z.eqb_neq. exact (proj1 (proj2 (tags_neq Hwf))).
Qed.

Lemma print_num_word (f : nat) (m : list Z) (n : Z) (nested : bool) :
  Rt.print (S f) m (encode n) nested = Rt.emit (show_Z (Z.shiftr (encode n) SHIFT)).
Proof. cbn [Rt.print]. rewrite (tag_encode Hwf), (classify_NUM Hwf). reflexivity. Qed.

Lemma print_num_pos (f : nat) (m : list Z) (n : Z) (nested : bool) :
  (1 <= f)%nat -> fixnum_range n -> Rt.print f m (encode n) nested = Rt.emit (show_Z n).
Proof. intros Hf Hn. destruct f as [|f]; [lia|]. apply print_num; assumption. Qed.

Lemma print_cells (m : list Z) (tl : Z) (ttxt : string) :
  ((tl = NIL /\ ttxt = EmptyString) \/
   (exists t, fixnum_range t /\ tl = encode t /\ ttxt = append " . " (show_Z t))) ->
  forall cs fuel nested, fixnum_cells m cs tl ->
  Forall (fun c => fixnum_range (snd c)) cs -> (List.length cs < fuel)%nat ->
  Rt.print fuel m (Z.lor (fst (hd (0, 0) cs)) PAIR) nested =
    (append (if nested then EmptyString else "(")
       (append (String.concat " " (map show_Z (map snd cs)))
          (append ttxt (if nested then EmptyString else ")"))), Rt.Done).
Proof.
  intros HT cs. induction cs as [|[p a] r IH]; intros fuel nested Hc Hr Hf; [contradiction|].
  destruct fuel as [|[|f]]; [simpl in Hf; lia|simpl in Hf; lia|].
  simpl in Hc. destruct Hc as (Hp & Ha & Hrest).
  inversion Hr as [|? ? Ra Rr]; subst; simpl in Ra.
  destruct r as [|[q b] r'].
  - destruct (pair_cell m p _ _ Hp Ha Hrest) as (T & Ca & Cd).
    simpl fst. rewrite (print_pair Hwf _ _ _ _ _ _ T Ca Cd).
    rewrite (print_num Hwf) by exact Ra.
    destruct HT as [[-> ->] | (t & Ht & -> & ->)].
    + rewrite Z.eqb_refl. destruct nested; cbn [Rt.then_ Rt.when_not Rt.emit];
        simpl; rewrite ?str_app_nil_r; reflexivity.
    + rewrite encode_not_nil, encode_not_pair. cbv beta iota delta [negb].
      rewrite (print_num Hwf) by exact Ht.
      destruct nested; cbn [Rt.then_ Rt.when_not Rt.emit];
        simpl; rewrite ?str_app_nil_r, ?str_app_assoc; reflexivity.
  - destruct Hrest as (Hn & Hc').
    destruct (pair_cell m p _ _ Hp Ha Hn) as (T & Ca & Cd).
    simpl fst. rewrite (print_pair Hwf _ _ _ _ _ _ T Ca Cd).
    rewrite (print_num Hwf) by exact Ra.
    assert (q mod 2 ^ SHIFT = 0) as Hq by (simpl in Hc'; tauto).
    rewrite (pair_not_nil q Hq).
    rewrite (proj2 (boxed_parts Hwf q PAIR pair_in_tags Hq)), Z.eqb_refl.
    cbv beta iota delta [negb].
    specialize (IH (S f) true Hc' Rr ltac:(simpl in *; lia)). simpl fst in IH.
    rewrite IH.
    destruct nested; cbn [Rt.then_ Rt.when_not Rt.emit];
      simpl; rewrite ?str_app_nil_r, ?str_app_assoc; reflexivity.
Qed.

End PrintMore.

(** [print] on lists of fixnums: a proper list laid out as pairs prints
    as its elements in decimal, separated by single spaces, between
    parentheses; a list whose last cdr is a fixnum [t] instead of the empty
    list prints [ . t] before the closing parenthesis (given one unit of
    the recursion bound per cell and one for the elements). *)
Theorem print_fixnum_lists `{Immediates} (Hwf : imm_wf = true) (m : list Z)
    (cs : list (Z * Z)) (fuel : nat) :
  Forall (fun c => fixnum_range (snd c)) cs -> (List.length cs < fuel)%nat ->
  (fixnum_cells m cs NIL ->
     Rt.print fuel m (Z.lor (fst (hd (0, 0) cs)) PAIR) false =
       (("(" ++ String.concat " " (map show_Z (map snd cs)) ++ ")")%string, Rt.Done)) /\
  (forall t, fixnum_range t -> fixnum_cells m cs (encode t) ->
     Rt.print fuel m (Z.lor (fst (hd (0, 0) cs)) PAIR) false =
       (("(" ++ String.concat " " (map show_Z (map snd cs)) ++ " . " ++ show_Z t ++ ")")%string,
        Rt.Done)).
Proof.
  intros Hr Hf. split.
  - intro Hc. rewrite (print_cells Hwf m NIL EmptyString (or_introl (conj eq_refl eq_refl))
                         cs fuel false Hc Hr Hf).
    reflexivity.
  - intros t Ht Hc.
    rewrite (print_cells Hwf m (encode t) (append " . " (show_Z t))
               (or_intror (ex_intro _ t (conj Ht (conj eq_refl eq_refl))))
               cs fuel false Hc Hr Hf).
    simpl. rewrite ?str_app_assoc. reflexivity.
Qed.

Lemma cells_next `{Immediates} (m : list Z) (tl : Z) :
  forall cs q, fixnum_cells m cs tl -> In q (map fst cs) ->
  q mod 2 ^ SHIFT = 0 /\ exists a d, Rt.load64 m q = Some (encode a) /\
    Rt.load64 m (q + 8) = Some d /\
    (d = tl \/ exists q', In q' (map fst cs) /\ q' mod 2 ^ SHIFT = 0 /\ d = Z.lor q' PAIR).
Proof.
  intro cs. induction cs as [|[p a] r IH]; intros q Hc Hq; [destruct Hq|].
  simpl in Hc. destruct Hc as (Hp & Ha & Hrest).
  destruct Hq as [<- | Hq].
  - split; [exact Hp|]. destruct r as [|[q' b] r'].
    + exists a, tl. auto.
    + destruct Hrest as (Hn & Hc'). exists a, (Z.lor q' PAIR).
      split; [exact Ha|]. split; [exact Hn|]. right. exists q'.
      split; [simpl; tauto|]. split; [|reflexivity]. simpl in Hc'. tauto.
  - destruct r as [|[q' b] r']; [destruct Hq|].
    destruct Hrest as (_ & Hc').
    destruct (IH q Hc' Hq) as (Hq0 & a' & d & La & Ld & Hd).
    split; [exact Hq0|]. exists a', d. split; [exact La|]. split; [exact Ld|].
    destruct Hd as [Hd | (q'' & Hin & Hal & Hd)]; [left; exact Hd|].
    right. exists q''. split; [simpl; tauto|]. auto.
Qed.

(** [print] on a cyclic list: when the last cdr of a list of fixnums points
    back to its first cell, [print] never completes: for every recursion
    bound it runs out of it, in any nesting mode, and neither finishes nor
    aborts. *)
Theorem print_cyclic_list_diverges `{Immediates} (Hwf : imm_wf = true) (m : list Z)
    (p a : Z) (r : list (Z * Z)) :
  fixnum_cells m ((p, a) :: r) (Z.lor p PAIR) ->
  forall fuel nested, snd (Rt.print fuel m (Z.lor p PAIR) nested) = Rt.Stuck.
Proof.
  intro Hc.
  set (cs := (p, a) :: r) in *.
  assert (forall q, In q (map fst cs) ->
            q mod 2 ^ SHIFT = 0 /\ exists a' q', Rt.load64 m q = Some (encode a') /\
              Rt.load64 m (q + 8) = Some (Z.lor q' PAIR) /\ In q' (map fst cs) /\
              q' mod 2 ^ SHIFT = 0) as Next.
  { intros q Hq. destruct (cells_next m _ cs q Hc Hq) as (Hq0 & a' & d & La & Ld & Hd).
    split; [exact Hq0|]. exists a'.
    destruct Hd as [-> | (q' & Hin & Hal & ->)].
    - exists p. split; [exact La|]. split; [exact Ld|]. split; [simpl; tauto|].
      exact (proj1 (cells_next m _ cs p Hc (or_introl eq_refl))).
    - exists q'. auto. }
  assert (forall fuel q nested, In q (map fst cs) ->
            snd (Rt.print fuel m (Z.lor q PAIR) nested) = Rt.Stuck) as All.
  { intro fuel. induction fuel as [|f IH]; intros q nested Hq; [reflexivity|].
    destruct (Next q Hq) as (Hq0 & a' & q' & La & Ld & Hin & Hal).
    destruct (pair_cell Hwf m q _ _ Hq0 La Ld) as (T & Ca & Cd).
    rewrite (print_pair Hwf _ _ _ _ _ _ T Ca Cd).
    rewrite (pair_not_nil Hwf q' Hal).
    rewrite (proj2 (boxed_parts Hwf q' PAIR pair_in_tags Hal)), Z.eqb_refl.
    cbv beta iota delta [negb].
    rewrite !then_status.
    assert (snd (Rt.when_not nested "(") = Rt.Done) as W by (destruct nested; reflexivity).
    rewrite W.
    destruct f as [|f']; [reflexivity|].
    rewrite (print_num_word Hwf).
    cbn [snd Rt.emit]. rewrite (IH q' true Hin). reflexivity. }
  intros fuel nested. apply All. simpl. tauto.
Qed.

Lemma skipn_nth_cons (j : nat) (l : list Z) :
  (j < List.length l)%nat -> skipn j l = nth j l 0 :: skipn (S j) l.
Proof.
  revert l; induction j as [|j IH]; intros [|x l] Hj; simpl in *; try lia; [reflexivity|].
  apply IH. lia.
Qed.

(** [print] on vectors of fixnums: a vector whose count word is the
    number of its fixnum elements prints as the elements in decimal
    separated by single spaces between brackets (no space after the last);
    a vector whose count word is zero or negative prints as [[]]. *)
Theorem print_fixnum_vectors `{Immediates} (Hwf : imm_wf = true) (m : list Z) (p : Z)
    (fuel : nat) (nested : bool) :
  (forall ns, (2 <= fuel)%nat -> Forall fixnum_range ns -> fixnum_vector m p ns ->
     Rt.print fuel m (Z.lor p VEC) nested =
       (("[" ++ String.concat " " (map show_Z ns) ++ "]")%string, Rt.Done)) /\
  (forall n, (1 <= fuel)%nat -> p mod 2 ^ SHIFT = 0 -> n <= 0 -> Rt.load64 m p = Some n ->
     Rt.print fuel m (Z.lor p VEC) nested = ("[]"%string, Rt.Done)).
Proof.
  assert (In VEC tags) as InV by (unfold tags; simpl; tauto).
  split.
  - intros ns Hf Hr (Hp & Hn & He).
    destruct fuel as [|f]; try lia.
    destruct (boxed_parts Hwf p VEC InV Hp) as [E T].
    assert (Rt.vec_len m (Z.lor p VEC) = Some (Z.of_nat (List.length ns))) as VL.
    { unfold Rt.vec_len. rewrite T, Z.eqb_refl, E.
      replace (p + VEC - VEC) with p by lia. exact Hn. }
    assert (forall i, (i < List.length ns)%nat ->
              Rt.vec_nth m (Z.lor p VEC) (Z.of_nat i) = Some (encode (nth i ns 0))) as VN.
    { intros i Hi. unfold Rt.vec_nth. rewrite T, Z.eqb_refl, E.
      replace (p + VEC - VEC + 8 + Z.of_nat i * 8) with (p + 8 + Z.of_nat i * 8) by lia.
      apply He. exact Hi. }
    cbn [Rt.print]. rewrite T, (classify_VEC Hwf), VL. cbn [Rt.bind_out].
    rewrite Nat2Z.id.
    match goal with
    | |- context [Rt.then_ (?L (List.length ns) 0) _] =>
        assert (forall k j, (j + k = List.length ns)%nat ->
                  L k (Z.of_nat j) =
                  (String.concat " " (map show_Z (skipn j ns)), Rt.Done)) as Loop
    end.
    { intro k. induction k as [|k IHk]; intros j Hj.
      - replace j with (List.length ns) by lia. rewrite skipn_all. reflexivity.
      - cbn beta iota. rewrite VN by lia. cbn [Rt.bind_out].
        rewrite (print_num_pos Hwf) by (lia || (apply Forall_nth; [exact Hr|lia])).
        try rewrite VL. cbn [Rt.bind_out].
        replace (Z.of_nat j + 1) with (Z.of_nat (S j)) by lia.
        rewrite IHk by lia. rewrite (skipn_nth_cons j ns) by lia.
        destruct k as [|k].
        + replace (Z.of_nat j =? Z.of_nat (List.length ns) - 1) with true
            by (symmetry; apply Z.eqb_eq; lia).
          replace (skipn (S j) ns) with (@nil Z) by (symmetry; apply skipn_all2; lia).
          simpl. rewrite str_app_nil_r. reflexivity.
        + replace (Z.of_nat j =? Z.of_nat (List.length ns) - 1) with false
            by (symmetry; apply Z.eqb_neq; lia).
          rewrite (skipn_nth_cons (S j) ns) by lia.
          reflexivity. }
    pose proof (Loop (List.length ns) 0%nat ltac:(lia)) as L0.
    change (Z.of_nat 0) with 0 in L0. rewrite L0. reflexivity.
  - intros n Hf Hp Hn Hl.
    destruct fuel as [|f]; [lia|].
    destruct (boxed_parts Hwf p VEC InV Hp) as [E T].
    cbn [Rt.print]. rewrite T, (classify_VEC Hwf).
    unfold Rt.vec_len at 1. rewrite T, Z.eqb_refl, E.
    replace (p + VEC - VEC) with p by lia. rewrite Hl. cbn [Rt.bind_out].
    replace (Z.to_nat n) with 0%nat by lia. reflexivity.
Qed.

(** [print] on immediates: a fixnum prints in decimal, [TRUE] as [#t],
    every other word with the [BOOL] tag ([FALSE] included) as [#f], and
    the empty list as [()], whatever the nesting flag and the memory. *)
Theorem print_immediates `{Immediates} (Hwf : imm_wf = true) (f : nat) (m : list Z)
    (nested : bool) :
  (forall n, fixnum_range n -> Rt.print (S f) m (encode n) nested = (show_Z n, Rt.Done)) /\
  Rt.print (S f) m TRUE nested = ("#t"%string, Rt.Done) /\
  (forall v, Rt.tag v = BOOL -> v <> TRUE -> Rt.print (S f) m v nested = ("#f"%string, Rt.Done)) /\
  Rt.print (S f) m FALSE nested = ("#f"%string, Rt.Done) /\
  Rt.print (S f) m NIL nested = ("()"%string, Rt.Done).
Proof.
  assert (forall v, Rt.tag v = BOOL ->
            Rt.print (S f) m v nested = ((if Z.eqb v TRUE then "#t" else "#f")%string, Rt.Done))
    as PB.
  { intros v Hv. cbn [Rt.print]. rewrite Hv, (classify_BOOL Hwf). reflexivity. }
  pose proof (tag_bool_word Hwf true) as TT. pose proof (tag_bool_word Hwf false) as TF.
  unfold bool_word in TT, TF.
  split; [|split; [|split; [|split]]].
  - intros n Hn. apply (print_num Hwf). exact Hn.
  - rewrite (PB _ TT), Z.eqb_refl. reflexivity.
  - intros v Hv Hne. rewrite (PB _ Hv). rewrite (proj2 (Z.eqb_neq v TRUE) Hne). reflexivity.
  - rewrite (PB _ TF). replace (FALSE =? TRUE) with false; [reflexivity|].
    symmetry. apply Z.eqb_neq. intro E. apply (TRUE_FALSE Hwf). symmetry. exact E.
  - cbn [Rt.print]. rewrite (tag_of_tag Hwf NIL) by (unfold tags; simpl; tauto).
    rewrite (classify_NIL Hwf). reflexivity.
Qed.

Lemma print_char_table :
  forallb (fun c1 => forallb (fun c2 =>
    negb (String.eqb (Rt.print_char c1) (Rt.print_char c2)) || (c1 =? c2)) byte_range)
    byte_range = true.
Proof. vm_compute. reflexivity. Qed.

Lemma in_byte_range (c : Z) : 0 <= c < 256 -> In c byte_range.
Proof.
  intro Hc. unfold byte_range. apply in_map_iff. exists (Z.to_nat c).
  split; [lia|]. apply in_seq. lia.
Qed.

(** [print] on characters: two characters (bytes) print the same text
    only when they are the same byte; the named forms [#\tab],
    [#\newline], [#\return], [#\space] and the [#\c] forms never collide. *)
Theorem print_chars_distinct `{Immediates} (Hwf : imm_wf = true) (f : nat) (m : list Z)
    (nested : bool) (c1 c2 : Z) :
  0 <= c1 < 256 -> 0 <= c2 < 256 ->
  Rt.print (S f) m (encode_char c1) nested = Rt.print (S f) m (encode_char c2) nested ->
  c1 = c2.
Proof.
  intros H1 H2 E.
  destruct (encode_char_parts Hwf c1 H1) as [T1 C1].
  destruct (encode_char_parts Hwf c2 H2) as [T2 C2].
  cbn [Rt.print] in E. rewrite T1, T2, (classify_CHAR Hwf), C1, C2 in E.
  injection E as E.
  pose proof print_char_table as Tb. rewrite forallb_forall in Tb.
  specialize (Tb c1 (in_byte_range c1 H1)). rewrite forallb_forall in Tb.
  specialize (Tb c2 (in_byte_range c2 H2)).
  rewrite E, String.eqb_refl in Tb. simpl in Tb. apply Z.eqb_eq. exact Tb.
Qed.

(** ** Text objects *)

Lemma cstr_ascii (m : list Z) (a : Z) (bs : list Z) :
  0 <= a -> firstn (List.length bs) (skipn (Z.to_nat a) m) = bs ->
  nth_error m (Z.to_nat a + List.length bs) = Some 0 ->
  Forall (fun b => 1 <= b < 128) bs ->
  option_map Rt.to_string_lossy (Rt.cstr_at m a) = Some bs.
Proof.
  intros Ha Hw Hn Hd. unfold Rt.cstr_at.
  replace (0 <=? a) with true by (symmetry; apply Z.leb_le; lia).
  rewrite <- (firstn_skipn (List.length bs) (skipn (Z.to_nat a) m)), Hw.
  assert (~ In 0 bs) as N0.
  { intro I. rewrite Forall_forall in Hd. specialize (Hd 0 I). lia. }
  rewrite take_cstr_app by exact N0.
  assert (nth_error (skipn (List.length bs) (skipn (Z.to_nat a) m)) 0 = Some 0)
    as Hr by (rewrite !nth_error_skipn, <- Hn; f_equal; lia).
  destruct (skipn (List.length bs) (skipn (Z.to_nat a) m)) as [|z rest]; [discriminate|].
  simpl in Hr. injection Hr as ->. simpl. rewrite app_nil_r.
  unfold Rt.to_string_lossy. rewrite lossy_ascii; [reflexivity| |lia].
  eapply Forall_impl; [|exact Hd]. simpl. intros b Hb. lia.
Qed.

(** Strings and symbols with ASCII text: for a string object at the
    aligned address [p] whose bytes from [p + 8] are ASCII without NUL and
    followed by a NUL, [str_str] gives those bytes and [print] writes them
    between double quotes; for a symbol whose name bytes start at [p + 16],
    [sym_name] gives them and [print] writes them after a quote.  The length
    word of the string object is not consulted. *)
Theorem ascii_text_objects `{Immediates} (Hwf : imm_wf = true) (m : list Z) (p : Z)
    (bs : list Z) :
  0 <= p -> p mod 2 ^ SHIFT = 0 -> Forall (fun b => 1 <= b < 128) bs ->
  (firstn (List.length bs) (skipn (Z.to_nat (p + 8)) m) = bs ->
   nth_error m (Z.to_nat (p + 8) + List.length bs) = Some 0 ->
   Rt.str_str m (Z.lor p STR) = Some bs /\
   forall f nested, Rt.print (S f) m (Z.lor p STR) nested =
     (append Rt.dq (append (Rt.bytes_to_string bs) Rt.dq), Rt.Done)) /\
  (firstn (List.length bs) (skipn (Z.to_nat (p + 16)) m) = bs ->
   nth_error m (Z.to_nat (p + 16) + List.length bs) = Some 0 ->
   Rt.sym_name m (Z.lor p SYM) = Some bs /\
   forall f nested, Rt.print (S f) m (Z.lor p SYM) nested =
     (append "'" (Rt.bytes_to_string bs), Rt.Done)).
Proof.
  intros Hp0 Hp Hd.
  assert (In STR tags) as InS by (unfold tags; simpl; tauto).
  assert (In SYM tags) as InY by (unfold tags; simpl; tauto).
  split.
  - intros Hw Hn. destruct (boxed_parts Hwf p STR InS Hp) as [E T].
    assert (Rt.str_str m (Z.lor p STR) = Some bs) as Es.
    { unfold Rt.str_str. rewrite T, Z.eqb_refl, E.
      replace (p + STR - STR + 8) with (p + 8) by lia.
      apply cstr_ascii; [lia|exact Hw|exact Hn|exact Hd]. }
    split; [exact Es|]. intros f nested. cbn [Rt.print].
    rewrite T, (classify_STR Hwf), Es. reflexivity.
  - intros Hw Hn. destruct (boxed_parts Hwf p SYM InY Hp) as [E T].
    assert (Rt.sym_name m (Z.lor p SYM) = Some bs) as Es.
    { unfold Rt.sym_name. rewrite T, Z.eqb_refl, E.
      replace (p + SYM - SYM + 16) with (p + 16) by lia.
      apply cstr_ascii; [lia|exact Hw|exact Hn|exact Hd]. }
    split; [exact Es|]. intros f nested. cbn [Rt.print].
    rewrite T, (classify_SYM Hwf), Es. reflexivity.
Qed.

(** ** Ports and files *)

Lemma num_vec_neq `{Immediates} (Hwf : imm_wf = true) : NUM <> VEC.
Proof.
  pose proof (wf_nodup Hwf) as N. unfold tags in N.
  inversion N as [|? ? N0 _]. intro E. apply N0. rewrite E. simpl. tauto.
Qed.

(** The standard ports: [rt_current_input_port], [rt_current_output_port]
    and [rt_current_error_port] return the fixnums 0, 1 and 2; these are
    not port vectors, so [rt_write] and [rt_read] abort on each of them (the
    tag assertion of [vec_nth] fails) whatever the memory, the files and
    the system's answers. *)
Theorem standard_ports_fixnums `{Immediates} (Hwf : imm_wf = true) :
  Rt.rt_current_input_port = encode 0 /\ Rt.rt_current_output_port = encode 1 /\
  Rt.rt_current_error_port = encode 2 /\
  forall port, In port [Rt.rt_current_input_port; Rt.rt_current_output_port;
                        Rt.rt_current_error_port] ->
    forall err fs m data r12,
      Rt.rt_write err fs m data port = None /\ Rt.rt_read err fs m r12 port = None.
Proof.
  pose proof (wf_shift Hwf) as Hs.
  assert (forall k, 0 <= k <= 2 -> Z.shiftl k SHIFT = encode k) as Ek.
  { intros k Hk. rewrite (encode_in_range Hwf) by (apply (small_fixnum Hwf); lia).
    apply Z.shiftl_mul_pow2. lia. }
  unfold Rt.rt_current_input_port, Rt.rt_current_output_port, Rt.rt_current_error_port.
  rewrite !Ek by lia.
  split; [reflexivity|]. split; [reflexivity|]. split; [reflexivity|].
  intros port Hin err fs m data r12.
  assert (Rt.vec_nth m port 1 = None) as V.
  { unfold Rt.vec_nth.
    assert (Rt.tag port = NUM) as T by (simpl in Hin; intuition subst; apply (tag_encode Hwf)).
    rewrite T. replace (NUM =? VEC) with false; [reflexivity|].
    symmetry. apply Z.eqb_neq. exact (num_vec_neq Hwf). }
  unfold Rt.rt_write, Rt.rt_read. rewrite V. split; reflexivity.
Qed.

(** The descriptor word [i64::from(f << SHIFT)]: the [i32] shift gives the
    fixnum [fd] for a descriptor below [2^(31 - SHIFT)], and drops bits
    for any larger one. *)
Lemma wrap32_shift `{Immediates} (Hwf : imm_wf = true) (fd : Z) :
  0 <= fd < 2 ^ 31 ->
  (fd < 2 ^ (31 - SHIFT) -> Rt.wrap32 (Z.shiftl fd SHIFT) = encode fd) /\
  (2 ^ (31 - SHIFT) <= fd -> Rt.wrap32 (Z.shiftl fd SHIFT) <> encode fd).
Proof.
  intro Hfd. pose proof (wf_shift Hwf) as Hs.
  assert (2 ^ (31 - SHIFT) * 2 ^ SHIFT = 2 ^ 31) as P
    by (rewrite <- Z.pow_add_r by lia; f_equal; lia).
  assert (2 ^ 31 <= 2 ^ (63 - SHIFT)) by (apply Z.pow_le_mono_r; lia).
  assert (0 < 2 ^ SHIFT) by (apply Z.pow_pos_nonneg; lia).
  rewrite (encode_in_range Hwf) by (unfold fixnum_range; lia).
  rewrite Z.shiftl_mul_pow2 by lia. unfold Rt.wrap32.
  split.
  - intro Hl. rewrite Z.mod_small by nia. lia.
  - intros Hl E. pose proof (Z.mod_pos_bound (fd * 2 ^ SHIFT + 2 ^ 31) (2 ^ 32)).
    assert (2 ^ 31 <= fd * 2 ^ SHIFT) by nia. lia.
Qed.

(** [rt_open_read] and [rt_open_write]: opening a named file for reading
    aborts exactly when the file does not exist or the system refuses to
    open it; opening it for writing completes unless the system refuses to
    create it, and then creates it empty (or truncates it), leaves every
    other file as it was, makes a later open for reading of the same name
    succeed unless the system refuses that open, and returns the
    descriptor as a fixnum when it is below [2^(31 - SHIFT)] (larger ones
    lose their high bits in the [i32] shift). *)
Theorem open_read_write_files `{Immediates} (Hwf : imm_wf = true) :
  (forall err fd fs m name path, Rt.str_str m name = Some path ->
     (Rt.rt_open_read err fd fs m name = None <->
      err Rt.OpenRead path = true \/ fs path = None)) /\
  (forall err fd fs m name path, Rt.str_str m name = Some path ->
     err Rt.Create path = false -> exists fs' w, Rt.rt_open_write err fd fs m name = Some (fs', w)) /\
  (forall err fd fd' fs fs' m name w, Rt.rt_open_write err fd fs m name = Some (fs', w) ->
     exists path, Rt.str_str m name = Some path /\ err Rt.Create path = false /\
       fs' path = Some [] /\ (forall q, q <> path -> fs' q = fs q) /\
       (err Rt.OpenRead path = false ->
        Rt.rt_open_read err fd' fs' m name = Some (Rt.wrap32 (Z.shiftl fd' SHIFT))) /\
       (0 <= fd < 2 ^ (31 - SHIFT) -> w = encode fd) /\
       (2 ^ (31 - SHIFT) <= fd < 2 ^ 31 -> w <> encode fd)).
Proof.
  split; [|split].
  - intros err fd fs m name path Hp. unfold Rt.rt_open_read. rewrite Hp.
    destruct (err Rt.OpenRead path); [split; intros; [left; reflexivity|reflexivity]|].
    destruct (fs path); split; intro E; try discriminate; try reflexivity.
    + destruct E; discriminate.
    + right. reflexivity.
  - intros err fd fs m name path Hp Hc. unfold Rt.rt_open_write. rewrite Hp, Hc.
    eexists; eexists; reflexivity.
  - intros err fd fd' fs fs' m name w Ho. unfold Rt.rt_open_write in Ho.
    destruct (Rt.str_str m name) as [path|] eqn:Ep; [|discriminate].
    destruct (err Rt.Create path) eqn:Ec; [discriminate|].
    injection Ho as <- <-. exists path.
    assert (Rt.fs_update fs path [] path = Some []) as Up.
    { unfold Rt.fs_update. destruct (list_eq_dec Z.eq_dec path path); [reflexivity|contradiction]. }
    pose proof (wf_shift Hwf) as Hs.
    assert (2 ^ (31 - SHIFT) <= 2 ^ 31) by (apply Z.pow_le_mono_r; lia).
    split; [reflexivity|]. split; [exact Ec|]. split; [exact Up|]. split; [|split; [|split]].
    + intros q Hq. unfold Rt.fs_update.
      destruct (list_eq_dec Z.eq_dec q path); [contradiction|reflexivity].
    + intro Hr. unfold Rt.rt_open_read. rewrite Ep, Hr, Up. reflexivity.
    + intro Hfd. apply (wrap32_shift Hwf fd); lia.
    + intro Hfd. apply (wrap32_shift Hwf fd); lia.
Qed.

Lemma store_bytes_ok (m : list Z) (a : Z) (bs : list Z) :
  0 <= a -> a + Z.of_nat (List.length bs) <= Z.of_nat (List.length m) ->
  Rt.store_bytes m a bs = Some (stored m (Z.to_nat a) bs).
Proof.
  intros H1 H2. unfold Rt.store_bytes.
  apply Z.leb_le in H1. apply Z.leb_le in H2. rewrite H1, H2. reflexivity.
Qed.

(** [rt_write] then [rt_read] through the same port: a completed
    [rt_write] returns the empty list, replaces the file named by the
    port's element 1 with the decoded text of the string, and changes no
    other file; unless the system then refuses to read that file, a
    following [rt_read] on the port, given room for the length word and the
    text at the cursor, succeeds, leaves the cursor where it was and copies
    exactly that text after its length word. *)
Theorem write_then_read_port `{Immediates} (err : Rt.IOErr) (fs : Rt.FS) (m : list Z)
    (data port : Z) (fs' : Rt.FS) (r : Z) :
  Rt.rt_write err fs m data port = Some (fs', r) ->
  r = NIL /\
  exists pv path text,
    Rt.vec_nth m port 1 = Some pv /\ Rt.str_str m pv = Some path /\
    Rt.str_str m data = Some text /\ err Rt.WriteFile path = false /\
    fs' path = Some text /\ (forall q, q <> path -> fs' q = fs q) /\
    (err Rt.ReadFile path = false ->
     forall r12, 0 <= r12 -> r12 + 8 + Z.of_nat (List.length text) <= Z.of_nat (List.length m) ->
       exists m' v, Rt.rt_read err fs' m r12 port = Some (m', r12, v) /\
         Rt.load_u64 m' r12 = Some (to_u64 (Z.of_nat (List.length text))) /\
         firstn (List.length text) (skipn (Z.to_nat (r12 + 8)) m') = text).
Proof.
  intro Hw. unfold Rt.rt_write in Hw.
  destruct (Rt.vec_nth m port 1) as [pv|] eqn:Ev; [|discriminate].
  destruct (Rt.str_str m pv) as [path|] eqn:Ep; [|discriminate].
  destruct (Rt.str_str m data) as [text|] eqn:Et; [|discriminate].
  destruct (err Rt.WriteFile path) eqn:Ew; [discriminate|].
  injection Hw as <- <-. split; [reflexivity|].
  assert (Rt.fs_update fs path text path = Some text) as Up.
  { unfold Rt.fs_update. destruct (list_eq_dec Z.eq_dec path path); [reflexivity|contradiction]. }
  exists pv, path, text.
  do 4 (split; [first [reflexivity | assumption]|]).
  split; [exact Up|]. split.
  - intros q Hq. unfold Rt.fs_update.
    destruct (list_eq_dec Z.eq_dec q path); [contradiction|reflexivity].
  - intros Er r12 H0 Hl.
    set (m1 := stored m (Z.to_nat r12) (Rt.le_bytes 8 (Z.of_nat (List.length text)))).
    assert (List.length m1 = List.length m) as L1
      by (apply stored_length; rewrite le_bytes_length; lia).
    set (m2 := stored m1 (Z.to_nat r12 + 8) text).
    assert (Rt.rt_read err (Rt.fs_update fs path text) m r12 port =
            Some (m2, r12, Z.lor (wrap64 r12) STR)) as Hr.
    { unfold Rt.rt_read. rewrite Ev, Ep, Er, Up.
      rewrite store_bytes_ok by (rewrite ?le_bytes_length; lia). fold m1.
      rewrite (store_bytes_ok m1 (r12 + 8) text) by (rewrite ?L1; lia).
      replace (Z.to_nat (r12 + 8)) with (Z.to_nat r12 + 8)%nat by lia. reflexivity. }
    destruct (rt_read_memory (Rt.fs_update fs path text) m r12 port m2
                r12 (Z.lor (wrap64 r12) STR)
                pv path text H0 Hl eq_refl) as (_ & Lw & Wd & _).
    exists m2, (Z.lor (wrap64 r12) STR).
    split; [exact Hr|]. split; [exact Lw|exact Wd].
Qed.

(** ** Concrete runs of the further properties *)

Section ConcreteMore.
#[local] Existing Instance sample_imm.

Lemma inc_dec_fixnums_witness :
  runs_to (fst (Prim.inc lit_eval 0 (encode 41))) sample_machine (encode 42) /\
  runs_to (fst (Prim.dec lit_eval 0 (encode 41))) sample_machine (encode 40).
Proof.
  exact (@inc_dec_fixnums sample_imm eq_refl Z Z lit_si lit_eval 0 (encode 41) 41
           ltac:(lit_operand) sample_machine).
Defined.

Lemma type_predicates_test_tag_witness :
  runs_to (fst (Prim.fixnump lit_eval 0 (encode_char 97))) sample_machine FALSE /\
  runs_to (fst (Prim.booleanp lit_eval 0 (encode_char 97))) sample_machine FALSE /\
  runs_to (fst (Prim.charp lit_eval 0 (encode_char 97))) sample_machine TRUE.
Proof.
  exact (@type_predicates_test_tag sample_imm eq_refl Z Z lit_si lit_eval 0
           (encode_char 97) (encode_char 97) ltac:(lit_operand) sample_machine).
Defined.

Lemma type_predicates_by_kind_witness :
  runs_to (fst (Prim.fixnump lit_eval 0 (encode 5))) sample_machine TRUE /\
  runs_to (fst (Prim.charp lit_eval 0 (encode_char 97))) sample_machine TRUE /\
  runs_to (fst (Prim.booleanp lit_eval 0 TRUE)) sample_machine TRUE /\
  runs_to (fst (Prim.fixnump lit_eval 0 (Z.lor 16 PAIR))) sample_machine FALSE.
Proof.
  destruct (@type_predicates_by_kind sample_imm eq_refl Z Z lit_si lit_eval 0 (encode 5)
              sample_machine) as (N & _ & _ & _).
  destruct (@type_predicates_by_kind sample_imm eq_refl Z Z lit_si lit_eval 0
              (encode_char 97) sample_machine) as (_ & C & _ & _).
  destruct (@type_predicates_by_kind sample_imm eq_refl Z Z lit_si lit_eval 0 TRUE
              sample_machine) as (_ & _ & B & _).
  destruct (@type_predicates_by_kind sample_imm eq_refl Z Z lit_si lit_eval 0
              (Z.lor 16 PAIR) sample_machine) as (_ & _ & _ & P).
  split; [exact (proj1 (N 5 ltac:(lit_operand)))|].
  split; [exact (proj2 (proj2 (C 97 ltac:(lia) ltac:(lit_operand))))|].
  split; [exact (proj1 (proj2 (B true ltac:(lit_operand))))|].
  exact (proj1 (P 16 PAIR ltac:(reflexivity) ltac:(simpl; tauto) ltac:(lit_operand))).
Defined.

Lemma nullp_not_whole_word_witness :
  runs_to (fst (Prim.nullp lit_eval 0 NIL)) sample_machine TRUE /\
  runs_to (fst (Prim.not lit_eval 0 (encode 0))) sample_machine FALSE.
Proof.
  destruct (@nullp_not_whole_word sample_imm eq_refl Z Z lit_si lit_eval 0 NIL NIL
              ltac:(lit_operand) sample_machine) as (N & _ & _).
  destruct (@nullp_not_whole_word sample_imm eq_refl Z Z lit_si lit_eval 0 (encode 0)
              (encode 0) ltac:(lit_operand) sample_machine) as (_ & _ & F).
  split; [exact N|]. apply F. vm_compute. discriminate.
Defined.

Lemma zerop_on_fixnums_witness :
  runs_to (fst (Prim.zerop lit_eval 0 (encode 0))) sample_machine TRUE /\
  runs_to (fst (Prim.zerop lit_eval 0 (encode 5))) sample_machine FALSE /\
  runs_to (fst (Prim.zerop lit_eval 0 NIL)) sample_machine FALSE.
Proof.
  destruct (@zerop_on_fixnums sample_imm eq_refl Z Z lit_si lit_eval 0 (encode 0)
              sample_machine) as (Z0 & _).
  destruct (@zerop_on_fixnums sample_imm eq_refl Z Z lit_si lit_eval 0 (encode 5)
              sample_machine) as (Z5 & _).
  destruct (@zerop_on_fixnums sample_imm eq_refl Z Z lit_si lit_eval 0 NIL
              sample_machine) as (_ & ZN).
  split; [exact (Z0 0 ltac:(unfold fixnum_range; simpl; lia) ltac:(lit_operand))|].
  split; [exact (Z5 5 ltac:(unfold fixnum_range; simpl; lia) ltac:(lit_operand))|].
  apply (ZN NIL); [vm_compute; discriminate|lit_operand].
Defined.

Lemma fixnum_comparisons_integer_order_witness :
  runs_to (fst (Prim.lt lit_si lit_eval 0 (encode (-3)) (encode 2))) sample_machine TRUE /\
  runs_to (fst (Prim.gt lit_si lit_eval 0 (encode (-3)) (encode 2))) sample_machine FALSE /\
  runs_to (fst (Prim.gte lit_si lit_eval 0 (encode (-3)) (encode 2))) sample_machine FALSE.
Proof.
  destruct (@fixnum_comparisons_integer_order sample_imm eq_refl Z Z lit_si lit_eval
              ltac:(intros ? ?; reflexivity) 0 (encode (-3)) (encode 2) (-3) 2
              ltac:(unfold fixnum_range; simpl; lia) ltac:(unfold fixnum_range; simpl; lia)
              ltac:(lit_operand) ltac:(lit_operand) sample_machine)
    as (_ & Lt & Gt & _ & Ge).
  split; [exact Lt|]. split; [exact Gt|exact Ge].
Defined.

Lemma division_by_zero_faults_witness :
  exec (fst (Prim.quotient lit_eval 0 (encode 7) (encode 0))) sample_machine = None /\
  exec (fst (Prim.remainder lit_eval 0 (encode 7) FALSE)) sample_machine = None.
Proof.
  split.
  - exact (proj1 (@division_by_zero_faults sample_imm eq_refl Z Z lit_si lit_eval 0
                    (encode 7) (encode 0) (encode 7) (encode 0)
                    ltac:(lit_operand) ltac:(lit_operand) ltac:(lit_keeps_rcx)
                    ltac:(split; [vm_compute; discriminate|vm_compute; reflexivity]) sample_machine)).
  - exact (proj2 (@division_by_zero_faults sample_imm eq_refl Z Z lit_si lit_eval 0
                    (encode 7) FALSE (encode 7) FALSE
                    ltac:(lit_operand) ltac:(lit_operand) ltac:(lit_keeps_rcx)
                    ltac:(split; [vm_compute; discriminate|vm_compute; reflexivity]) sample_machine)).
Defined.

Lemma print_fixnum_lists_witness :
  Rt.print 3 list_heap (Z.lor 0 PAIR) false = ("(1 2)"%string, Rt.Done) /\
  Rt.print 3 improper_heap (Z.lor 0 PAIR) false = ("(1 2 . 3)"%string, Rt.Done).
Proof.
  destruct (@print_fixnum_lists sample_imm eq_refl list_heap [(0, 1); (16, 2)] 3
              ltac:(repeat (apply Forall_cons; [unfold fixnum_range; simpl; lia|]);
                    apply Forall_nil)
              ltac:(simpl; lia)) as [L _].
  destruct (@print_fixnum_lists sample_imm eq_refl improper_heap [(0, 1); (16, 2)] 3
              ltac:(repeat (apply Forall_cons; [unfold fixnum_range; simpl; lia|]);
                    apply Forall_nil)
              ltac:(simpl; lia)) as [_ I].
  split.
  - exact (L ltac:(vm_compute; repeat split)).
  - exact (I 3 ltac:(unfold fixnum_range; simpl; lia) ltac:(vm_compute; repeat split)).
Defined.

Lemma print_cyclic_list_diverges_witness :
  snd (Rt.print 50 cycle_heap (Z.lor 0 PAIR) false) = Rt.Stuck.
Proof.
  exact (@print_cyclic_list_diverges sample_imm eq_refl cycle_heap 0 7 []
           ltac:(vm_compute; repeat split) 50 false).
Defined.

Lemma print_fixnum_vectors_witness :
  Rt.print 2 vec_heap (Z.lor 0 VEC) false = ("[1 2 3]"%string, Rt.Done) /\
  Rt.print 1 neg_vec_heap (Z.lor 0 VEC) true = ("[]"%string, Rt.Done).
Proof.
  destruct (@print_fixnum_vectors sample_imm eq_refl vec_heap 0 2 false) as [V _].
  destruct (@print_fixnum_vectors sample_imm eq_refl neg_vec_heap 0 1 true) as [_ E].
  split.
  - exact (V [1; 2; 3] ltac:(lia)
             ltac:(repeat (apply Forall_cons; [unfold fixnum_range; simpl; lia|]);
                   apply Forall_nil)
             ltac:(split; [reflexivity|]; split; [vm_compute; reflexivity|];
                   intros i Hi; simpl in Hi;
                   do 3 (destruct i as [|i]; [vm_compute; reflexivity|]); lia)).
  - exact (E (-1) ltac:(lia) eq_refl ltac:(lia) ltac:(vm_compute; reflexivity)).
Defined.

Lemma print_immediates_witness :
  Rt.print 1 print_heap (encode (-12)) false = ("-12"%string, Rt.Done) /\
  Rt.print 1 print_heap 17 true = ("#f"%string, Rt.Done) /\
  Rt.print 1 print_heap NIL false = ("()"%string, Rt.Done).
Proof.
  destruct (@print_immediates sample_imm eq_refl 0 print_heap false) as (N & _ & _ & _ & L).
  destruct (@print_immediates sample_imm eq_refl 0 print_heap true) as (_ & _ & B & _ & _).
  split; [exact (N (-12) ltac:(unfold fixnum_range; simpl; lia))|].
  split; [exact (B 17 eq_refl ltac:(vm_compute; discriminate))|exact L].
Defined.

Lemma print_chars_distinct_witness :
  Rt.print 1 print_heap (encode_char 97) false = Rt.print 1 print_heap (encode_char 97) false /\
  97 = 97.
Proof.
  split; [reflexivity|].
  exact (@print_chars_distinct sample_imm eq_refl 0 print_heap false 97 97
           ltac:(lia) ltac:(lia) eq_refl).
Defined.

Lemma ascii_text_objects_witness :
  Rt.str_str text_heap (Z.lor 0 STR) = Some [104; 105] /\
  Rt.print 1 text_heap (Z.lor 0 STR) false =
    (append Rt.dq (append "hi" Rt.dq), Rt.Done) /\
  Rt.sym_name text_heap (Z.lor 16 SYM) = Some [104; 105] /\
  Rt.print 1 text_heap (Z.lor 16 SYM) false = ("'hi"%string, Rt.Done).
Proof.
  destruct (@ascii_text_objects sample_imm eq_refl text_heap 0 [104; 105] ltac:(lia) eq_refl
              ltac:(repeat (apply Forall_cons; [lia|]); apply Forall_nil)) as [S _].
  destruct (@ascii_text_objects sample_imm eq_refl text_heap 16 [104; 105] ltac:(lia) eq_refl
              ltac:(repeat (apply Forall_cons; [lia|]); apply Forall_nil)) as [_ Y].
  destruct (S ltac:(vm_compute; reflexivity) ltac:(vm_compute; reflexivity)) as [S1 S2].
  destruct (Y ltac:(vm_compute; reflexivity) ltac:(vm_compute; reflexivity)) as [Y1 Y2].
  split; [exact S1|]. split; [exact (S2 0%nat false)|].
  split; [exact Y1|exact (Y2 0%nat false)].
Defined.

Lemma standard_ports_fixnums_witness :
  Rt.rt_current_output_port = encode 1 /\
  Rt.rt_write no_err (sample_fs []) sample_heap (Z.lor 32 STR) Rt.rt_current_output_port
    = None /\
  Rt.rt_read no_err (sample_fs []) sample_heap 64 Rt.rt_current_input_port = None.
Proof.
  destruct (@standard_ports_fixnums sample_imm eq_refl) as (_ & O & _ & P).
  split; [exact O|]. split.
  - exact (proj1 (P Rt.rt_current_output_port ltac:(simpl; tauto)
                    no_err (sample_fs []) sample_heap (Z.lor 32 STR) 64)).
  - exact (proj2 (P Rt.rt_current_input_port ltac:(simpl; tauto)
                    no_err (sample_fs []) sample_heap (Z.lor 32 STR) 64)).
Defined.

Lemma open_read_write_files_witness :
  Rt.rt_open_read no_err 3 (fun _ => None) sample_heap (Z.lor 32 STR) = None /\
  Rt.rt_open_read read_denied 3 (sample_fs []) sample_heap (Z.lor 32 STR) = None /\
  Rt.rt_open_read no_err 3 (sample_fs []) sample_heap (Z.lor 32 STR) <> None /\
  match Rt.rt_open_write no_err 3 (fun _ => None) sample_heap (Z.lor 32 STR) with
  | Some (fs', w) =>
      fs' [97] = Some [] /\
      Rt.rt_open_read no_err 4 fs' sample_heap (Z.lor 32 STR) = Some (encode 4) /\
      w = encode 3
  | None => False
  end /\
  match Rt.rt_open_write no_err (2 ^ 28) (fun _ => None) sample_heap (Z.lor 32 STR) with
  | Some (_, w) => w <> encode (2 ^ 28)
  | None => False
  end.
Proof.
  destruct (@open_read_write_files sample_imm eq_refl) as (OR & OC & OW).
  split; [apply (proj2 (OR no_err 3 (fun _ => None) sample_heap (Z.lor 32 (@STR sample_imm))
                          [97] ltac:(vm_compute; reflexivity))); right; reflexivity|].
  split; [apply (proj2 (OR read_denied 3 (sample_fs []) sample_heap
                          (Z.lor 32 (@STR sample_imm)) [97] ltac:(vm_compute; reflexivity)));
          left; reflexivity|].
  split.
  - intro N. apply (proj1 (OR no_err 3 (sample_fs []) sample_heap (Z.lor 32 (@STR sample_imm))
                            [97] ltac:(vm_compute; reflexivity))) in N.
    destruct N as [N|N]; vm_compute in N; discriminate.
  - split.
    + destruct (Rt.rt_open_write no_err 3 (fun _ => None) sample_heap (Z.lor 32 STR))
        as [[fs' w]|] eqn:E; [|vm_compute in E; discriminate].
      destruct (OW no_err 3 4 _ _ _ _ _ E) as (path & Hp & _ & Hf & _ & Hr & Hw & _).
      vm_compute in Hp. injection Hp as <-.
      split; [exact Hf|]. split; [exact (Hr eq_refl)|].
      apply Hw. vm_compute. split; [discriminate|reflexivity].
    + destruct (Rt.rt_open_write no_err (2 ^ 28) (fun _ => None) sample_heap (Z.lor 32 STR))
        as [[fs' w]|] eqn:E; [|vm_compute in E; discriminate].
      destruct (OW no_err (2 ^ 28) 4 _ _ _ _ _ E) as (_ & _ & _ & _ & _ & _ & _ & Hw).
      apply Hw. vm_compute. split; [discriminate|reflexivity].
Defined.

Lemma write_then_read_port_witness :
  match Rt.rt_write no_err (sample_fs [1]) sample_heap (Z.lor 32 STR) (Z.lor 0 VEC) with
  | Some (fs', r) =>
      r = NIL /\ fs' [97] = Some [97] /\
      exists m' v, Rt.rt_read no_err fs' sample_heap 64 (Z.lor 0 VEC) = Some (m', 64, v) /\
        firstn 1 (skipn 72 m') = [97]
  | None => False
  end.
Proof.
  destruct (Rt.rt_write no_err (sample_fs [1]) sample_heap (Z.lor 32 STR) (Z.lor 0 VEC))
    as [[fs' r]|] eqn:E; [|vm_compute in E; discriminate].
  destruct (write_then_read_port _ _ _ _ _ _ _ E)
    as (Hr & pv & path & text & Hpv & Hpath & Htext & _ & Hfs & _ & Hread).
  vm_compute in Hpv. injection Hpv as <-.
  vm_compute in Hpath. injection Hpath as <-.
  vm_compute in Htext. injection Htext as <-.
  split; [exact Hr|]. split; [exact Hfs|].
  destruct (Hread eq_refl 64 ltac:(lia) ltac:(vm_compute; discriminate))
    as (m' & v & R & _ & T).
  exists m', v. split; [exact R|exact T].
Defined.

End ConcreteMore.
